(** * midiGPIO v0.2.2: debounced inputs to MIDI, MIDI notes to outputs

    A shallow embedding of [midiGPIO_v0.2.2.ino] and the properties of its
    debounce loop, of the mapping from confirmed edges to MIDI messages and
    of the mapping from inbound notes to output pins.

    Conventions of the embedding:
    - a pin level is a [bool] ([HIGH = true], [LOW = false]);
    - [uint8_t] and [byte] values (pins, notes, velocities, channels) are
      [Z]; the sketch only compares and prints them;
    - [unsigned long] is 32 bits wide on the Teensy boards the sketch is
      written for; the one subtraction on it is written with its
      wrap-around ([ulong_sub]);
    - the three global arrays are lists indexed with stdpp's lookup and
      insert; the sketch only ever indexes them below 4;
    - every effect on the outside (pin writes, MIDI sends on either
      transport, diagnostic lines) is appended to the [out] trace of the
      [World], oldest first; pin writes also update [pinLevel];
    - what the outside provides during one pass of [loop] (queued inbound
      messages, pin levels, the milliseconds since the board started) is a
      [LoopEnv]; [millis()] returns that time modulo 2^32. *)

From stdpp Require Import base list gmap strings pretty.
From Stdlib Require Import ZArith Lia.

Local Open Scope Z_scope.

(** ** Levels and machine arithmetic *)

Definition HIGH : bool := true.
Definition LOW : bool := false.

Definition ULONG_MAX1 : Z := 2 ^ 32.

(** [a - b] on [unsigned long]. *)
Definition ulong_sub (a b : Z) : Z := (a - b) mod ULONG_MAX1.

(** [millis()]: the milliseconds since the board started, as an
    [unsigned long]; it wraps after 2^32 ms. *)
Definition millis_at (clock : Z) : Z := clock mod ULONG_MAX1.

(** ** Configuration *)

Definition inputPins : list Z := [2; 3; 4; 5].
Definition outputPins : list Z := [14; 15; 16; 17].
Definition noteNumbers : list Z := [60; 61; 62; 63].
Definition programNumbers : list Z := [0; 1; 2; 3].

Definition MODE_PIN : Z := 12.
Definition STATE_PIN : Z := 13.

Definition MIDI_CHANNEL : Z := 1.
Definition DEBOUNCE_MS : Z := 10.
Definition INPUT_ACTIVE_HIGH : bool := true.
Definition NOTE_ON_VELOCITY : Z := 110.

(** ** Effects *)

Inductive midi_msg : Type :=
| NoteOn (note velocity channel : Z)
| NoteOff (note velocity channel : Z)
| ProgramChange (program channel : Z).

Inductive pin_mode : Type := INPUT | INPUT_PULLUP | OUTPUT.

Inductive event : Type :=
| UsbSend (m : midi_msg)              (* usbMIDI.sendXxx *)
| SerialSend (m : midi_msg)           (* MIDI.sendXxx *)
| Println (s : string)                (* Serial.println *)
| DigitalWrite (pin : Z) (level : bool)
| PinMode (pin : Z) (mode : pin_mode).

(** Messages the two MIDI libraries hand over while they are read. Only
    Note On and Note Off have a registered handler. *)
Inductive inbound : Type :=
| InNoteOn (channel note velocity : Z)
| InNoteOff (channel note velocity : Z)
| InOther.

(** ** State *)

Record World : Type := mkWorld {
  lastStableState : list bool;
  lastReadState : list bool;
  lastDebounceTime : list Z;
  pinLevel : gmap Z bool;
  out : list event
}.

(** The globals before [setup] runs: zero-initialised arrays. *)
Definition power_on : World :=
  mkWorld [false; false; false; false] [false; false; false; false]
          [0; 0; 0; 0] ∅ [].

Definition set_lastStableState (i : nat) (v : bool) (w : World) : World :=
  mkWorld (<[i := v]> (lastStableState w)) (lastReadState w)
          (lastDebounceTime w) (pinLevel w) (out w).

Definition set_lastReadState (i : nat) (v : bool) (w : World) : World :=
  mkWorld (lastStableState w) (<[i := v]> (lastReadState w))
          (lastDebounceTime w) (pinLevel w) (out w).

Definition set_lastDebounceTime (i : nat) (v : Z) (w : World) : World :=
  mkWorld (lastStableState w) (lastReadState w)
          (<[i := v]> (lastDebounceTime w)) (pinLevel w) (out w).

Definition emit (e : event) (w : World) : World :=
  mkWorld (lastStableState w) (lastReadState w) (lastDebounceTime w)
          (pinLevel w) (out w ++ [e]).

Definition println (s : string) (w : World) : World := emit (Println s) w.

Definition pinMode (pin : Z) (mode : pin_mode) (w : World) : World :=
  emit (PinMode pin mode) w.

Definition digitalWrite (pin : Z) (level : bool) (w : World) : World :=
  mkWorld (lastStableState w) (lastReadState w) (lastDebounceTime w)
          (<[pin := level]> (pinLevel w)) (out w ++ [DigitalWrite pin level]).

(** [for (uint8_t i = start; ...; ++i) body], with [n] passes left. *)
Fixpoint for_loop (body : nat → World → World) (i n : nat) (w : World) : World :=
  match n with
  | O => w
  | S n' => for_loop body (S i) n' (body i w)
  end.

(** ** MIDI output functions (both transports, USB first) *)

Definition sendMidiNoteOn (note velocity channel : Z) (w : World) : World :=
  let w := emit (UsbSend (NoteOn note velocity channel)) w in
  let w := emit (SerialSend (NoteOn note velocity channel)) w in
  println ("Send noteOn: ch=" +:+ pretty channel +:+ ", note=" +:+ pretty note
           +:+ ", velocity=" +:+ pretty velocity) w.

Definition sendMidiNoteOff (note velocity channel : Z) (w : World) : World :=
  let w := emit (UsbSend (NoteOff note velocity channel)) w in
  let w := emit (SerialSend (NoteOff note velocity channel)) w in
  println ("Send noteOff: ch=" +:+ pretty channel +:+ ", note=" +:+ pretty note
           +:+ ", velocity=" +:+ pretty velocity) w.

Definition sendMidiProgramChange (program channel : Z) (w : World) : World :=
  let w := emit (UsbSend (ProgramChange program channel)) w in
  let w := emit (SerialSend (ProgramChange program channel)) w in
  println ("Send programChange" +:+ pretty program +:+ ", channel"
           +:+ pretty channel) w.

(** ** MIDI message processing (output switching) *)

(** The search loop of [processNoteOn] and [processNoteOff],
    [for (i = 0; i < 4; ++i) if (noteNumbers[i] == note)
       { digitalWrite(outputPins[i], level); break; }],
    entered at index [i] with [n] passes left. The two tables are arguments
    so that the search can also be studied on other tables; the sketch
    always passes [noteNumbers] and [outputPins]. *)
Fixpoint noteScan (notes pins : list Z) (level : bool) (note : Z)
    (i n : nat) (w : World) : World :=
  match n with
  | O => w
  | S n' =>
      if notes !!! i =? note
      then digitalWrite (pins !!! i) level w        (* break *)
      else noteScan notes pins level note (S i) n' w
  end.

Definition processNoteOff (channel note velocity : Z) (w : World) : World :=
  let w := if negb (channel =? MIDI_CHANNEL)
           then w                       (* the [return] is commented out *)
           else w in
  noteScan noteNumbers outputPins HIGH note 0 4 w.

Definition processNoteOn (channel note velocity : Z) (w : World) : World :=
  let w := if negb (channel =? MIDI_CHANNEL)
           then w                       (* the [return] is commented out *)
           else w in
  if velocity =? 0
  then processNoteOff channel note velocity w
  else noteScan noteNumbers outputPins LOW note 0 4 w.

(** ** MIDI input callbacks *)

Definition handleNoteOn (channel note velocity : Z) (w : World) : World :=
  let w := processNoteOn channel note velocity w in
  println ("Received noteOn: ch=" +:+ pretty channel +:+ ", note="
           +:+ pretty note +:+ ", velocity=" +:+ pretty velocity) w.

Definition handleNoteOff (channel note velocity : Z) (w : World) : World :=
  let w := processNoteOff channel note velocity w in
  println ("Received noteOff: ch=" +:+ pretty channel +:+ ", note="
           +:+ pretty note +:+ ", velocity=" +:+ pretty velocity) w.

(** One successful [read()] of a transport: the library calls the handler
    registered for the message, if there is one. *)
Definition deliver (w : World) (m : inbound) : World :=
  match m with
  | InNoteOn c n v => handleNoteOn c n v w
  | InNoteOff c n v => handleNoteOff c n v w
  | InOther => w
  end.

(** [while (X.read()) { }] over the messages the transport has queued. *)
Definition drain (queue : list inbound) (w : World) : World :=
  foldl deliver w queue.

(** ** setup *)

Record BootEnv : Type := mkBootEnv {
  bootRead : Z → bool;          (* digitalRead(pin) during setup *)
  bootClock : nat → Z           (* ms since start, in pass [i] of the first for *)
}.

Definition bootMillis (e : BootEnv) (i : nat) : Z := millis_at (bootClock e i).

(** The registration of the handlers with both transports is what
    [deliver] stands for; [MIDI.begin(MIDI_CHANNEL_OMNI)] and [Serial.begin]
    open the ports and have no effect on the modelled state. *)
Definition setup (e : BootEnv) (w : World) : World :=
  let w := for_loop (λ i w,
             let w := pinMode (inputPins !!! i) INPUT w in
             let w := set_lastReadState i (bootRead e (inputPins !!! i)) w in
             let w := set_lastStableState i (lastReadState w !!! i) w in
             set_lastDebounceTime i (bootMillis e i) w) 0 4 w in
  let w := pinMode MODE_PIN INPUT_PULLUP w in
  let w := for_loop (λ i w,
             let w := pinMode (outputPins !!! i) OUTPUT w in
             digitalWrite (outputPins !!! i) HIGH w) 0 4 w in
  let w := pinMode STATE_PIN OUTPUT w in
  digitalWrite STATE_PIN HIGH w.

(** ** loop *)

Record LoopEnv : Type := mkLoopEnv {
  serialQueue : list inbound;   (* what MIDI.read() delivers in this pass *)
  usbQueue : list inbound;      (* what usbMIDI.read() delivers in this pass *)
  digitalRead : Z → bool;       (* level of each pin when this pass reads it *)
  clock : Z                     (* ms since start when this pass reads millis() *)
}.

Definition millis (e : LoopEnv) : Z := millis_at (clock e).

(** The body of the polling [for] of [loop], for input [i]. *)
Definition pollInput (e : LoopEnv) (programMode : bool) (now : Z)
    (i : nat) (w : World) : World :=
  let reading := digitalRead e (inputPins !!! i) in
  let w := if negb (Bool.eqb reading (lastReadState w !!! i))
           then let w := set_lastDebounceTime i now w in
                set_lastReadState i reading w
           else w in
  if DEBOUNCE_MS <=? ulong_sub now (lastDebounceTime w !!! i) then
    if negb (Bool.eqb (lastStableState w !!! i) reading) then
      let w := set_lastStableState i reading w in
      let active := if INPUT_ACTIVE_HIGH
                    then Bool.eqb reading HIGH
                    else Bool.eqb reading LOW in
      let note := noteNumbers !!! i in
      if active then
        if programMode then
          let program := programNumbers !!! i in
          sendMidiProgramChange program MIDI_CHANNEL w
        else
          sendMidiNoteOn note NOTE_ON_VELOCITY MIDI_CHANNEL w
      else
        if negb programMode then
          sendMidiNoteOff note 0 MIDI_CHANNEL w
        else w
    else w
  else w.

(** One pass of [loop]. The closing [delay(1)] changes nothing in the world;
    the time it takes shows in the [clock] of the next pass. *)
Definition loop (e : LoopEnv) (w : World) : World :=
  let w := drain (serialQueue e) w in
  let w := drain (usbQueue e) w in
  let programMode := Bool.eqb (digitalRead e MODE_PIN) HIGH in
  let now := millis e in
  for_loop (pollInput e programMode now) 0 4 w.

(** The world after [setup] and then one pass of [loop] per environment. *)
Definition run (b : BootEnv) (es : list LoopEnv) : World :=
  foldl (λ w e, loop e w) (setup b power_on) es.

(** ** The debounce engine and the input event mapper in the words of the
    specification

    One channel's [InputState] and the algorithm of the debounce engine,
    steps 1 to 3, and the four rules of the input event mapper. The sketch
    is compared with these below ([pollInput_refines]). The elapsed time is
    the difference of two [millis()] values, taken as the sketch takes it. *)
Module Spec.

Record InputState : Type := mkInputState {
  rawLastRead : bool;
  stableLevel : bool;
  lastChangeTimestamp : Z
}.

Inductive edge : Type := Activated | Deactivated.

Definition DEBOUNCE_INTERVAL : Z := 10.

(** Active-high polarity: a level of HIGH is "active". *)
Definition direction (level : bool) : edge :=
  if level then Activated else Deactivated.

Definition debounce (now : Z) (raw : bool) (s : InputState)
    : InputState * option edge :=
  let s := if bool_decide (raw ≠ rawLastRead s)
           then mkInputState raw (stableLevel s) now
           else s in
  if bool_decide (DEBOUNCE_INTERVAL ≤ ulong_sub now (lastChangeTimestamp s)
                  ∧ rawLastRead s ≠ stableLevel s)
  then (mkInputState (rawLastRead s) (rawLastRead s) (lastChangeTimestamp s),
        Some (direction (rawLastRead s)))
  else (s, None).

Definition mapEvent (programMode : bool) (i : nat) (ed : edge)
    : option midi_msg :=
  match ed, programMode with
  | Activated, false =>
      Some (NoteOn (noteNumbers !!! i) NOTE_ON_VELOCITY MIDI_CHANNEL)
  | Activated, true =>
      Some (ProgramChange (programNumbers !!! i) MIDI_CHANNEL)
  | Deactivated, false =>
      Some (NoteOff (noteNumbers !!! i) 0 MIDI_CHANNEL)
  | Deactivated, true => None
  end.

(** The edges of a list, first to last, strictly alternate, the first one
    leaving the level [level]. *)
Fixpoint alternate_from (level : bool) (eds : list edge) : Prop :=
  match eds with
  | [] => True
  | ed :: eds' =>
      ed = direction (negb level) ∧ alternate_from (negb level) eds'
  end.

End Spec.

(** ** Observations on worlds and traces *)

(** The [InputState] of channel [i] in the three arrays. *)
Definition channel (i : nat) (w : World) : Spec.InputState :=
  Spec.mkInputState (lastReadState w !!! i) (lastStableState w !!! i)
                    (lastDebounceTime w !!! i).

(** The level pass [e] reads on the pin of input [i], and the mode it reads. *)
Definition raw (e : LoopEnv) (i : nat) : bool := digitalRead e (inputPins !!! i).
Definition programMode_of (e : LoopEnv) : bool :=
  Bool.eqb (digitalRead e MODE_PIN) HIGH.

(** The level read on the pin of input [i] by the last pass of [es], or by
    [setup] when [es] is empty. *)
Definition last_raw (b : BootEnv) (es : list LoopEnv) (i : nat) : bool :=
  match last es with
  | Some e => raw e i
  | None => bootRead b (inputPins !!! i)
  end.

(** The diagnostic line the send functions print with a message. *)
Definition sendLine (m : midi_msg) : string :=
  match m with
  | NoteOn note velocity channel =>
      "Send noteOn: ch=" +:+ pretty channel +:+ ", note=" +:+ pretty note
      +:+ ", velocity=" +:+ pretty velocity
  | NoteOff note velocity channel =>
      "Send noteOff: ch=" +:+ pretty channel +:+ ", note=" +:+ pretty note
      +:+ ", velocity=" +:+ pretty velocity
  | ProgramChange program channel =>
      "Send programChange" +:+ pretty program +:+ ", channel"
      +:+ pretty channel
  end.

(** A message on both transports, USB first, and its diagnostic line. *)
Definition transmitted (m : midi_msg) : list event :=
  [UsbSend m; SerialSend m; Println (sendLine m)].

(** What the input event mapper has the dispatcher do for channel [i] with
    what the debounce engine emitted. *)
Definition edge_events (programMode : bool) (i : nat)
    (ed : option Spec.edge) : list event :=
  match ed ≫= Spec.mapEvent programMode i with
  | Some m => transmitted m
  | None => []
  end.

(** The edge the debounce engine emits for channel [i] in pass [e], from the
    state the arrays hold when the pass begins. *)
Definition edge_in_pass (e : LoopEnv) (w : World) (i : nat) : option Spec.edge :=
  (Spec.debounce (millis e) (raw e i) (channel i w)).2.

(** The edges of channel [i] over the passes [es] from world [w] on. *)
Fixpoint edges_from (w : World) (es : list LoopEnv) (i : nat) : list Spec.edge :=
  match es with
  | [] => []
  | e :: es' =>
      option_list (edge_in_pass e w i) ++ edges_from (loop e w) es' i
  end.

(** MIDI sends that name channel [i]: its note or its program. *)
Definition about (i : nat) (ev : event) : bool :=
  match ev with
  | UsbSend m | SerialSend m =>
      match m with
      | NoteOn n _ _ | NoteOff n _ _ => n =? noteNumbers !!! i
      | ProgramChange p _ => p =? programNumbers !!! i
      end
  | _ => false
  end.

(** What was appended to the trace between [w] and a later world [w']. *)
Definition emitted (w w' : World) : list event :=
  drop (length (out w)) (out w').

Definition is_send (ev : event) : bool :=
  match ev with
  | UsbSend _ | SerialSend _ => true
  | _ => false
  end.

Definition is_write (ev : event) : bool :=
  match ev with
  | DigitalWrite _ _ => true
  | _ => false
  end.

(** The MIDI sends, respectively the pin writes, of a trace, in order. *)
Definition sends (evs : list event) : list event := List.filter is_send evs.
Definition writes (evs : list event) : list event := List.filter is_write evs.

(** The world inside one pass of [loop], after both transports were drained
    and inputs [0 .. k-1] were polled; [polled e w 4] is [loop e w]. *)
Definition polled (e : LoopEnv) (w : World) (k : nat) : World :=
  let w := drain (serialQueue e) w in
  let w := drain (usbQueue e) w in
  let programMode := Bool.eqb (digitalRead e MODE_PIN) HIGH in
  let now := millis e in
  for_loop (pollInput e programMode now) 0 k w.

(** What the poll of input [k] appends to the trace in the pass [e]. *)
Definition poll_events (e : LoopEnv) (w : World) (k : nat) : list event :=
  emitted (polled e w k) (polled e w (S k)).

(** What the drain of the two transports appends in the pass [e]. *)
Definition inbound_events (e : LoopEnv) (w : World) : list event :=
  emitted w (polled e w 0).

(** The arrays of the sketch have their four cells. *)
Definition arrays_ok (w : World) : Prop :=
  length (lastStableState w) = 4%nat ∧
  length (lastReadState w) = 4%nat ∧
  length (lastDebounceTime w) = 4%nat.

(** [w'] differs from [w] at most in the pin levels and by trace entries
    that are no MIDI sends: what handling inbound messages may do. *)
Definition inbound_only (w w' : World) : Prop :=
  lastStableState w' = lastStableState w ∧
  lastReadState w' = lastReadState w ∧
  lastDebounceTime w' = lastDebounceTime w ∧
  ∃ l, out w' = out w ++ l ∧ sends l = [].

(** ** A bouncing input

    The raw level of the scenario "HIGH at 0 ms, LOW at 3 ms, HIGH from 6 ms
    on", at pass [k] of a run that polls once per millisecond, and the
    [InputState] channel 2 holds in such a run when pass [k] begins. *)
Definition bounce_level (k : nat) : bool := bool_decide (k < 3 ∨ 6 ≤ k)%nat.

Definition bounce_state (b : BootEnv) (t0 : Z) (k : nat) : Spec.InputState :=
  if decide (k = 0)%nat then Spec.mkInputState LOW LOW (bootMillis b 2)
  else if decide (k ≤ 3)%nat then Spec.mkInputState HIGH LOW (millis_at t0)
  else if decide (k ≤ 6)%nat then Spec.mkInputState LOW LOW (millis_at (t0 + 3))
  else if decide (k ≤ 16)%nat then Spec.mkInputState HIGH LOW (millis_at (t0 + 6))
  else Spec.mkInputState HIGH HIGH (millis_at (t0 + 6)).

(** Environments for examples: a boot with every pin LOW at time 0, and a
    pass at time [t] with empty MIDI queues. *)
Definition boot_all_low : BootEnv := mkBootEnv (λ _, LOW) (λ _, 0).

Definition pass_at (t : Z) (pins : Z → bool) : LoopEnv := mkLoopEnv [] [] pins t.

Definition only_pin (p : Z) : Z → bool := λ q, bool_decide (q = p).

(** The first [n] passes of the bounce scenario from time 0, one per
    millisecond, with every other pin, the mode pin too, LOW. *)
Definition bounce_pass (k : nat) : LoopEnv :=
  pass_at (Z.of_nat k) (λ q, bool_decide (q = 4) && bounce_level k).

Definition bounce_run (n : nat) : list LoopEnv := bounce_pass <$> seq 0 n.

(** ** Observations used beyond the single pass *)

(** Passes of [loop] from an arbitrary world; [run b es] is
    [run_from (setup b power_on) es]. *)
Definition run_from (w : World) (es : list LoopEnv) : World :=
  foldl (λ w e, loop e w) w es.

(** The messages a trace sends on the USB, respectively the serial,
    transport, in order. *)
Definition usb_msgs (evs : list event) : list midi_msg :=
  omap (λ ev, match ev with UsbSend m => Some m | _ => None end) evs.

Definition serial_msgs (evs : list event) : list midi_msg :=
  omap (λ ev, match ev with SerialSend m => Some m | _ => None end) evs.

(** The three messages the sketch is configured to send for channel [i]. *)
Definition configured_msg (m : midi_msg) : Prop :=
  ∃ i, (i < 4)%nat ∧
       (m = NoteOn (noteNumbers !!! i) NOTE_ON_VELOCITY MIDI_CHANNEL ∨
        m = NoteOff (noteNumbers !!! i) 0 MIDI_CHANNEL ∨
        m = ProgramChange (programNumbers !!! i) MIDI_CHANNEL).

(** A trace entry fits the mode of the pass: Program Change only in program
    mode, Note On and Note Off only in note mode; other entries always. *)
Definition fits_mode (programMode : bool) (ev : event) : bool :=
  match ev with
  | UsbSend m | SerialSend m =>
      match m with
      | ProgramChange _ _ => programMode
      | NoteOn _ _ _ | NoteOff _ _ _ => negb programMode
      end
  | _ => true
  end.

(** The level an inbound message asks for on the output of note [n], if it
    is a note message for [n]. *)
Definition asked_level (n : Z) (m : inbound) : option bool :=
  match m with
  | InNoteOn _ n' v =>
      if n' =? n then Some (if v =? 0 then HIGH else LOW) else None
  | InNoteOff _ n' _ => if n' =? n then Some HIGH else None
  | InOther => None
  end.

(** Note messages for note [n] that alternate, Note On (velocity 110) and
    Note Off (velocity 0) on [MIDI_CHANNEL], starting with Note On exactly
    when the note is not [held]. *)
Fixpoint note_alternation (held : bool) (n : Z) (ms : list midi_msg) : Prop :=
  match ms with
  | [] => True
  | m :: ms' =>
      if held
      then m = NoteOff n 0 MIDI_CHANNEL ∧ note_alternation false n ms'
      else m = NoteOn n NOTE_ON_VELOCITY MIDI_CHANNEL ∧
           note_alternation true n ms'
  end.

(** The pins the sketch drives: the four outputs and the state pin. *)
Definition driven_pins : gset Z := {[ 13; 14; 15; 16; 17 ]}.

(** * Inbound notes to output pins *)

Lemma emitted_app (w w' : World) (l : list event) :
  out w' = out w ++ l → emitted w w' = l.
Proof.
  intros Hout. unfold emitted. by rewrite Hout, drop_app_length.
Qed.

Lemma emitted_refl (w : World) : emitted w w = [].
Proof. apply emitted_app. by rewrite app_nil_r. Qed.

Section NoteScan.
Variables (notes pins : list Z) (level : bool) (note : Z).

Lemma noteScan_no_match (i n : nat) (w : World) :
  (∀ j, (i ≤ j < i + n)%nat → notes !!! j ≠ note) →
  noteScan notes pins level note i n w = w.
Proof.
  revert i. induction n as [|n IH]; intros i Hno; [done|]. simpl.
  destruct (Z.eqb_spec (notes !!! i) note) as [Heq|_].
  - exfalso. apply (Hno i); [lia | done].
  - apply IH. intros j Hj. apply Hno. lia.
Qed.

Lemma noteScan_first_match (i n k : nat) (w : World) :
  (i ≤ k < i + n)%nat →
  notes !!! k = note →
  (∀ j, (i ≤ j < k)%nat → notes !!! j ≠ note) →
  noteScan notes pins level note i n w = digitalWrite (pins !!! k) level w.
Proof.
  revert i. induction n as [|n IH]; intros i Hk Hhit Hbefore; [lia|]. simpl.
  destruct (Z.eqb_spec (notes !!! i) note) as [Heq|Hne].
  - destruct (decide (i = k)) as [->|Hik]; [done|].
    exfalso. apply (Hbefore i); [lia | done].
  - destruct (decide (i = k)) as [->|Hik]; [done|].
    apply IH; [lia | done |]. intros j Hj. apply Hbefore. lia.
Qed.
End NoteScan.

Lemma configured_note_index (i : nat) (n : Z) :
  noteNumbers !! i = Some n → (i < 4)%nat ∧ noteNumbers !!! i = n ∧
  ∀ j, (j < i)%nat → noteNumbers !!! j ≠ n.
Proof.
  intros Hi. split_and!.
  - by apply lookup_lt_Some in Hi.
  - by apply list_lookup_total_correct.
  - intros j Hj Heq. apply lookup_lt_Some in Hi as Hlt. simpl in Hlt.
    assert (noteNumbers !! j = Some n) as Hjn.
    { rewrite <- Heq. apply list_lookup_lookup_total_lt. simpl. lia. }
    destruct i as [|[|[|[|?]]]], j as [|[|[|[|?]]]]; simplify_eq/=; lia.
Qed.

Lemma unconfigured_note (n : Z) (j : nat) :
  n ∉ noteNumbers → (j < 4)%nat → noteNumbers !!! j ≠ n.
Proof.
  intros Hn Hj Heq. apply Hn. rewrite <- Heq.
  apply list_elem_of_lookup. exists j.
  apply list_lookup_lookup_total_lt. simpl. lia.
Qed.

Lemma processNoteOff_channel_free (c n v : Z) (w : World) :
  processNoteOff c n v w = noteScan noteNumbers outputPins HIGH n 0 4 w.
Proof. unfold processNoteOff. by destruct (negb (c =? MIDI_CHANNEL)). Qed.

Lemma processNoteOn_channel_free (c n v : Z) (w : World) :
  processNoteOn c n v w =
  noteScan noteNumbers outputPins (if v =? 0 then HIGH else LOW) n 0 4 w.
Proof.
  unfold processNoteOn. rewrite processNoteOff_channel_free.
  by destruct (negb (c =? MIDI_CHANNEL)), (v =? 0).
Qed.

Lemma noteScan_configured (level : bool) (n : Z) (w : World) :
  ((n ∉ noteNumbers) ∧ noteScan noteNumbers outputPins level n 0 4 w = w) ∨
  (∃ i, noteNumbers !! i = Some n ∧
        noteScan noteNumbers outputPins level n 0 4 w =
        digitalWrite (outputPins !!! i) level w).
Proof.
  destruct (decide (n ∈ noteNumbers)) as [Hin|Hout].
  - right. apply list_elem_of_lookup in Hin as [i Hi]. exists i. split; [done|].
    apply configured_note_index in Hi as (Hlt & Heq & Hfirst).
    apply noteScan_first_match; [lia | done |]. intros j Hj. apply Hfirst. lia.
  - left. split; [done|]. apply noteScan_no_match.
    intros j Hj. apply unconfigured_note; [done | lia].
Qed.

Lemma emitted_digitalWrite_println (w : World) (p : Z) (l : bool) (s : string) :
  emitted w (println s (digitalWrite p l w)) = [DigitalWrite p l; Println s].
Proof. apply emitted_app. simpl. by rewrite <- app_assoc. Qed.

Lemma emitted_println (w : World) (s : string) :
  emitted w (println s w) = [Println s].
Proof. by apply emitted_app. Qed.

(** C4. An inbound Note On with velocity 0 changes the output pins exactly
    as a Note Off for the same note does, whatever the channel and whatever
    the velocity of the Note Off: the two [process] functions return the same
    world, and the two handlers leave the same pin levels and perform the
    same pin writes (they differ only in the diagnostic line). For note 60
    the one write drives pin 14 HIGH. *)
Theorem noteOn_velocity0_same_as_noteOff (c n v' : Z) (w : World) :
  processNoteOn c n 0 w = processNoteOff c n v' w ∧
  pinLevel (handleNoteOn c n 0 w) = pinLevel (handleNoteOff c n v' w) ∧
  writes (emitted w (handleNoteOn c n 0 w)) =
    writes (emitted w (handleNoteOff c n v' w)) ∧
  pinLevel (handleNoteOn c 60 0 w) !! 14 = Some HIGH ∧
  writes (emitted w (handleNoteOn c 60 0 w)) = [DigitalWrite 14 HIGH] ∧
  pinLevel (handleNoteOff c 60 v' w) !! 14 = Some HIGH.
Proof.
  assert (processNoteOn c n 0 w = processNoteOff c n v' w) as Hsame.
  { by rewrite processNoteOn_channel_free, processNoteOff_channel_free. }
  split_and!.
  - done.
  - unfold handleNoteOn, handleNoteOff. by rewrite Hsame.
  - unfold handleNoteOn, handleNoteOff. rewrite Hsame.
    rewrite processNoteOff_channel_free.
    destruct (noteScan_configured HIGH n w) as [[_ ->]|(i & _ & ->)].
    + by rewrite !emitted_println.
    + by rewrite !emitted_digitalWrite_println.
  - unfold handleNoteOn. rewrite processNoteOn_channel_free. simpl.
    apply lookup_insert_eq.
  - unfold handleNoteOn. rewrite processNoteOn_channel_free. simpl.
    change (noteScan _ _ _ _ _ _ _) with (digitalWrite 14 HIGH w).
    by rewrite emitted_digitalWrite_println.
  - unfold handleNoteOff. rewrite processNoteOff_channel_free. simpl.
    apply lookup_insert_eq.
Qed.

(** C5. An inbound Note On for note 61 with a velocity other than 0,
    followed by an inbound Note Off for note 61, drives output pin 15 LOW
    and then HIGH; the level of every other pin is what it was before, after
    each of the two messages, and the two writes to pin 15 are the only pin
    writes performed. *)
Theorem note61_round_trip (c v c' v' : Z) (w : World) :
  v ≠ 0 →
  let w1 := handleNoteOn c 61 v w in
  let w2 := handleNoteOff c' 61 v' w1 in
  pinLevel w1 !! 15 = Some LOW ∧
  pinLevel w2 !! 15 = Some HIGH ∧
  (∀ p, p ≠ 15 →
     pinLevel w1 !! p = pinLevel w !! p ∧ pinLevel w2 !! p = pinLevel w !! p) ∧
  writes (emitted w w1) = [DigitalWrite 15 LOW] ∧
  writes (emitted w1 w2) = [DigitalWrite 15 HIGH].
Proof.
  intros Hv w1 w2.
  assert (w1 = println
            ("Received noteOn: ch=" +:+ pretty c +:+ ", note=" +:+ pretty 61
             +:+ ", velocity=" +:+ pretty v) (digitalWrite 15 LOW w)) as Hw1.
  { unfold w1, handleNoteOn. rewrite processNoteOn_channel_free.
    apply Z.eqb_neq in Hv. by rewrite Hv. }
  assert (w2 = println
            ("Received noteOff: ch=" +:+ pretty c' +:+ ", note=" +:+ pretty 61
             +:+ ", velocity=" +:+ pretty v') (digitalWrite 15 HIGH w1)) as Hw2.
  { unfold w2, handleNoteOff. by rewrite processNoteOff_channel_free. }
  split_and!.
  - rewrite Hw1. simpl. apply lookup_insert_eq.
  - rewrite Hw2. simpl. apply lookup_insert_eq.
  - intros p Hp. rewrite Hw2, Hw1. simpl.
    by rewrite !lookup_insert_ne.
  - rewrite Hw1. by rewrite emitted_digitalWrite_println.
  - rewrite Hw2. by rewrite emitted_digitalWrite_println.
Qed.

Lemma note61_round_trip_witness :
  let w1 := handleNoteOn 1 61 100 (setup (mkBootEnv (λ _, LOW) (λ _, 0)) power_on) in
  let w2 := handleNoteOff 1 61 0 w1 in
  pinLevel w1 !! 15 = Some LOW ∧
  pinLevel w2 !! 15 = Some HIGH ∧
  (∀ p, p ≠ 15 →
     pinLevel w1 !! p =
       pinLevel (setup (mkBootEnv (λ _, LOW) (λ _, 0)) power_on) !! p ∧
     pinLevel w2 !! p =
       pinLevel (setup (mkBootEnv (λ _, LOW) (λ _, 0)) power_on) !! p) ∧
  writes (emitted (setup (mkBootEnv (λ _, LOW) (λ _, 0)) power_on) w1) =
    [DigitalWrite 15 LOW] ∧
  writes (emitted w1 w2) = [DigitalWrite 15 HIGH].
Proof.
  apply (note61_round_trip 1 100 1 0
           (setup (mkBootEnv (λ _, LOW) (λ _, 0)) power_on)).
  lia.
Defined.

(** C8. An inbound Note On or Note Off whose note is none of the four
    configured ones is a no-op of the processing functions: they return the
    world they were given (no pin write, no change of any array), and the
    handlers add one diagnostic line and nothing else. A note found at
    index [i] of the table causes one write, to [outputPins[i]]; and on any
    pair of tables the search writes for the first index that holds the
    note and for no later one. *)
Theorem unmatched_note_is_ignored (c n v : Z) (w : World) :
  ((n ∉ noteNumbers) →
     processNoteOn c n v w = w ∧ processNoteOff c n v w = w ∧
     writes (emitted w (handleNoteOn c n v w)) = [] ∧
     writes (emitted w (handleNoteOff c n v w)) = [] ∧
     pinLevel (handleNoteOn c n v w) = pinLevel w ∧
     pinLevel (handleNoteOff c n v w) = pinLevel w) ∧
  (∀ i, noteNumbers !! i = Some n →
     processNoteOff c n v w = digitalWrite (outputPins !!! i) HIGH w ∧
     processNoteOn c n v w =
       digitalWrite (outputPins !!! i) (if v =? 0 then HIGH else LOW) w) ∧
  (∀ (notes pins : list Z) (level : bool) (i k : nat),
     (i < k)%nat → notes !!! i = n →
     (∀ j, (j < i)%nat → notes !!! j ≠ n) →
     noteScan notes pins level n 0 k w = digitalWrite (pins !!! i) level w).
Proof.
  split_and!.
  - intros Hn.
    assert (∀ level, noteScan noteNumbers outputPins level n 0 4 w = w) as Hscan.
    { intros level. apply noteScan_no_match. intros j Hj.
      apply unconfigured_note; [done | lia]. }
    assert (processNoteOn c n v w = w) as Hon.
    { by rewrite processNoteOn_channel_free. }
    assert (processNoteOff c n v w = w) as Hoff.
    { by rewrite processNoteOff_channel_free. }
    unfold handleNoteOn, handleNoteOff. rewrite Hon, Hoff.
    by rewrite !emitted_println.
  - intros i Hi. apply configured_note_index in Hi as (Hlt & Heq & Hfirst).
    rewrite processNoteOn_channel_free, processNoteOff_channel_free.
    split; (apply noteScan_first_match;
            [lia | done | intros j Hj; apply Hfirst; lia]).
  - intros notes pins level i k Hik Hhit Hfirst.
    apply noteScan_first_match; [lia | done |].
    intros j Hj. apply Hfirst. lia.
Qed.

Lemma unmatched_note_is_ignored_witness :
  processNoteOn 1 64 100 power_on = power_on ∧
  processNoteOff 1 64 0 power_on = power_on ∧
  processNoteOff 1 62 0 power_on = digitalWrite 16 HIGH power_on ∧
  noteScan [7; 9; 9; 9] [20; 21; 22; 23] LOW 9 0 4 power_on =
    digitalWrite 21 LOW power_on.
Proof.
  destruct (unmatched_note_is_ignored 1 64 100 power_on) as (Hnone & _ & _).
  destruct (unmatched_note_is_ignored 1 64 0 power_on) as (Hnone' & _ & _).
  destruct (unmatched_note_is_ignored 1 62 0 power_on) as (_ & Hhit & _).
  destruct (unmatched_note_is_ignored 1 9 0 power_on) as (_ & _ & Hfirst).
  assert (64 ∉ noteNumbers) as H64.
  { unfold noteNumbers. rewrite !not_elem_of_cons. split_and!; try lia.
    apply not_elem_of_nil. }
  split_and!.
  - by apply Hnone.
  - by apply Hnone'.
  - by apply (Hhit 2%nat).
  - apply (Hfirst [7; 9; 9; 9] [20; 21; 22; 23] LOW 1%nat 4%nat).
    + lia.
    + reflexivity.
    + intros j Hj. assert (j = 0%nat) as -> by lia. vm_compute. lia.
Defined.

(** C9. The channel of an inbound note plays no part: for any two channel
    values, [processNoteOn] returns the same world, and so does
    [processNoteOff]; the handlers leave the same pin levels and perform
    the same pin writes. *)
Theorem inbound_channel_is_ignored (c1 c2 n v : Z) (w : World) :
  processNoteOn c1 n v w = processNoteOn c2 n v w ∧
  processNoteOff c1 n v w = processNoteOff c2 n v w ∧
  pinLevel (handleNoteOn c1 n v w) = pinLevel (handleNoteOn c2 n v w) ∧
  pinLevel (handleNoteOff c1 n v w) = pinLevel (handleNoteOff c2 n v w) ∧
  writes (emitted w (handleNoteOn c1 n v w)) =
    writes (emitted w (handleNoteOn c2 n v w)) ∧
  writes (emitted w (handleNoteOff c1 n v w)) =
    writes (emitted w (handleNoteOff c2 n v w)).
Proof.
  unfold handleNoteOn, handleNoteOff.
  rewrite !processNoteOn_channel_free, !processNoteOff_channel_free.
  split_and!; try done.
  - destruct (noteScan_configured (if v =? 0 then HIGH else LOW) n w)
      as [[_ ->]|(i & _ & ->)].
    + by rewrite !emitted_println.
    + by rewrite !emitted_digitalWrite_println.
  - destruct (noteScan_configured HIGH n w) as [[_ ->]|(i & _ & ->)].
    + by rewrite !emitted_println.
    + by rewrite !emitted_digitalWrite_println.
Qed.

(** * The polling loop *)

Lemma for_loop_snoc (body : nat → World → World) (i n : nat) (w : World) :
  for_loop body i (S n) w = body (i + n)%nat (for_loop body i n w).
Proof.
  revert i w. induction n as [|n IH]; intros i w.
  - simpl. by rewrite Nat.add_0_r.
  - change (for_loop body i (S (S n)) w)
      with (for_loop body (S i) (S n) (body i w)).
    rewrite IH. simpl. by rewrite Nat.add_succ_r.
Qed.

Lemma list_insert_lookup_total `{Inhabited A} (l : list A) (i : nat) :
  <[i := l !!! i]> l = l.
Proof.
  apply list_insert_id'. intros Hi. by apply list_lookup_lookup_total_lt.
Qed.

Lemma transmitted_NoteOn (n v c : Z) (w : World) :
  sendMidiNoteOn n v c w =
  mkWorld (lastStableState w) (lastReadState w) (lastDebounceTime w)
          (pinLevel w) (out w ++ transmitted (NoteOn n v c)).
Proof. unfold sendMidiNoteOn, println, emit. simpl. by rewrite <- !app_assoc. Qed.

Lemma transmitted_NoteOff (n v c : Z) (w : World) :
  sendMidiNoteOff n v c w =
  mkWorld (lastStableState w) (lastReadState w) (lastDebounceTime w)
          (pinLevel w) (out w ++ transmitted (NoteOff n v c)).
Proof. unfold sendMidiNoteOff, println, emit. simpl. by rewrite <- !app_assoc. Qed.

Lemma transmitted_ProgramChange (p c : Z) (w : World) :
  sendMidiProgramChange p c w =
  mkWorld (lastStableState w) (lastReadState w) (lastDebounceTime w)
          (pinLevel w) (out w ++ transmitted (ProgramChange p c)).
Proof.
  unfold sendMidiProgramChange, println, emit. simpl. by rewrite <- !app_assoc.
Qed.

Lemma eqb_decide (a b : bool) : Bool.eqb a b = bool_decide (a = b).
Proof. by destruct a, b. Qed.

Lemma leb_decide (a b : Z) : (a <=? b) = bool_decide (a ≤ b).
Proof. destruct (Z.leb_spec a b); symmetry; [apply bool_decide_eq_true_2 | apply bool_decide_eq_false_2]; lia. Qed.

Lemma ulong_sub_diag (a : Z) : ulong_sub a a = 0.
Proof. unfold ulong_sub. by rewrite Z.sub_diag. Qed.

(** The body of the polling loop carries out, on cell [i] of the arrays,
    one step of the debounce engine, and appends what the input event mapper
    asks for. *)
Lemma pollInput_refines (e : LoopEnv) (pm : bool) (now : Z) (i : nat) (w : World) :
  arrays_ok w → (i < 4)%nat →
  pollInput e pm now i w =
  let r := Spec.debounce now (raw e i) (channel i w) in
  mkWorld (<[i := Spec.stableLevel r.1]> (lastStableState w))
          (<[i := Spec.rawLastRead r.1]> (lastReadState w))
          (<[i := Spec.lastChangeTimestamp r.1]> (lastDebounceTime w))
          (pinLevel w) (out w ++ edge_events pm i r.2).
Proof.
  intros (Hs & Hr & Ht) Hi. destruct w as [st rd tm pins o]. simpl in *.
  unfold pollInput, Spec.debounce, channel, raw. simpl.
  set (reading := digitalRead e (inputPins !!! i)).
  rewrite !eqb_decide, !leb_decide, <- !bool_decide_not.
  destruct (decide (reading = rd !!! i)) as [Heq|Hne].
  - rewrite (bool_decide_eq_false_2 (reading ≠ rd !!! i)) by naive_solver.
    simpl. rewrite Heq. clearbody reading. subst reading.
    unfold Spec.DEBOUNCE_INTERVAL, DEBOUNCE_MS, HIGH.
    destruct (decide (10 ≤ ulong_sub now (tm !!! i) ∧ rd !!! i ≠ st !!! i))
      as [[Hel Hst]|Hno].
    + rewrite (bool_decide_eq_true_2 (10 ≤ _ ∧ _)) by done.
      rewrite (bool_decide_eq_true_2 (10 ≤ _)) by done.
      rewrite (bool_decide_eq_true_2 (_ ≠ _)) by done.
      unfold edge_events, Spec.direction.
      destruct (rd !!! i) eqn:Hrd, pm; simpl;
        rewrite ?transmitted_NoteOn, ?transmitted_NoteOff,
          ?transmitted_ProgramChange; unfold set_lastStableState; simpl;
        rewrite ?app_nil_r, <- ?Hrd, !list_insert_lookup_total; done.
    + rewrite (bool_decide_eq_false_2 (10 ≤ _ ∧ _)) by done.
      simpl. rewrite !list_insert_lookup_total.
      unfold edge_events. simpl. rewrite app_nil_r.
      repeat case_bool_decide; try done; exfalso; naive_solver.
  - rewrite (bool_decide_eq_true_2 (reading ≠ rd !!! i)) by done.
    simpl. rewrite !list_lookup_total_insert_eq by lia.
    rewrite ulong_sub_diag.
    rewrite (bool_decide_eq_false_2 (DEBOUNCE_MS ≤ 0)) by (unfold DEBOUNCE_MS; lia).
    rewrite bool_decide_eq_false_2
      by (unfold Spec.DEBOUNCE_INTERVAL; lia).
    simpl. unfold set_lastReadState, set_lastDebounceTime, edge_events. simpl.
    by rewrite app_nil_r, list_insert_lookup_total.
Qed.

Lemma pollInput_arrays_ok (e : LoopEnv) (pm : bool) (now : Z) (i : nat) (w : World) :
  arrays_ok w → arrays_ok (pollInput e pm now i w).
Proof.
  intros (Hs & Hr & Ht). unfold pollInput, arrays_ok.
  repeat case_match; simpl; rewrite ?length_insert; done.
Qed.

Lemma inbound_only_refl (w : World) : inbound_only w w.
Proof. split_and!; try done. exists []. by rewrite app_nil_r. Qed.

Lemma inbound_only_trans (w1 w2 w3 : World) :
  inbound_only w1 w2 → inbound_only w2 w3 → inbound_only w1 w3.
Proof.
  intros (Hs & Hr & Ht & l & Hl & Hq) (Hs' & Hr' & Ht' & l' & Hl' & Hq').
  split_and!; try congruence.
  exists (l ++ l'). split.
  - by rewrite Hl', Hl, app_assoc.
  - unfold sends in *. by rewrite List.filter_app, Hq, Hq'.
Qed.

Lemma inbound_only_println (s : string) (w : World) : inbound_only w (println s w).
Proof. split_and!; try done. by exists [Println s]. Qed.

Lemma inbound_only_digitalWrite (p : Z) (l : bool) (w : World) :
  inbound_only w (digitalWrite p l w).
Proof. split_and!; try done. by exists [DigitalWrite p l]. Qed.

Lemma inbound_only_noteScan (level : bool) (n : Z) (w : World) :
  inbound_only w (noteScan noteNumbers outputPins level n 0 4 w).
Proof.
  destruct (noteScan_configured level n w) as [[_ ->]|(i & _ & ->)].
  - apply inbound_only_refl.
  - apply inbound_only_digitalWrite.
Qed.

Lemma inbound_only_deliver (w : World) (m : inbound) : inbound_only w (deliver w m).
Proof.
  destruct m as [c n v|c n v|]; simpl.
  - unfold handleNoteOn. rewrite processNoteOn_channel_free.
    eapply inbound_only_trans;
      [apply inbound_only_noteScan | apply inbound_only_println].
  - unfold handleNoteOff. rewrite processNoteOff_channel_free.
    eapply inbound_only_trans;
      [apply inbound_only_noteScan | apply inbound_only_println].
  - apply inbound_only_refl.
Qed.

Lemma inbound_only_drain (queue : list inbound) (w : World) :
  inbound_only w (drain queue w).
Proof.
  unfold drain. revert w. induction queue as [|m queue IH]; intros w; simpl.
  - apply inbound_only_refl.
  - eapply inbound_only_trans; [apply inbound_only_deliver | apply IH].
Qed.

Lemma polled_0 (e : LoopEnv) (w : World) :
  polled e w 0 = drain (usbQueue e) (drain (serialQueue e) w).
Proof. reflexivity. Qed.

Lemma polled_S (e : LoopEnv) (w : World) (k : nat) :
  polled e w (S k) =
  pollInput e (programMode_of e) (millis e) k (polled e w k).
Proof. unfold polled. by rewrite for_loop_snoc. Qed.

Lemma loop_polled (e : LoopEnv) (w : World) : loop e w = polled e w 4.
Proof. reflexivity. Qed.

Lemma polled_0_inbound_only (e : LoopEnv) (w : World) :
  inbound_only w (polled e w 0).
Proof.
  rewrite polled_0.
  eapply inbound_only_trans; apply inbound_only_drain.
Qed.

Lemma inbound_only_arrays_ok (w w' : World) :
  inbound_only w w' → arrays_ok w → arrays_ok w'.
Proof. intros (Hs & Hr & Ht & _). unfold arrays_ok. by rewrite Hs, Hr, Ht. Qed.

Lemma inbound_only_channel (w w' : World) (i : nat) :
  inbound_only w w' → channel i w' = channel i w.
Proof. intros (Hs & Hr & Ht & _). unfold channel. by rewrite Hs, Hr, Ht. Qed.

Lemma polled_arrays_ok (e : LoopEnv) (w : World) (k : nat) :
  arrays_ok w → arrays_ok (polled e w k).
Proof.
  intros Hok. induction k as [|k IH].
  - by eapply inbound_only_arrays_ok; [apply polled_0_inbound_only|].
  - rewrite polled_S. by apply pollInput_arrays_ok.
Qed.

(** Inside a pass, the cell of channel [j] holds the outcome of the debounce
    step once input [j] was polled, and what the pass began with before. *)
Lemma polled_channel (e : LoopEnv) (w : World) (k j : nat) :
  arrays_ok w → (j < 4)%nat → (k ≤ 4)%nat →
  channel j (polled e w k) =
  if decide (j < k)%nat
  then (Spec.debounce (millis e) (raw e j) (channel j w)).1
  else channel j w.
Proof.
  intros Hok Hj. induction k as [|k IH]; intros Hk.
  - rewrite decide_False by lia.
    apply inbound_only_channel, polled_0_inbound_only.
  - specialize (IH ltac:(lia)).
    pose proof (polled_arrays_ok e w k Hok) as (Hs & Hr & Ht).
    rewrite polled_S, pollInput_refines by (by apply polled_arrays_ok || lia).
    unfold channel at 1. simpl.
    destruct (decide (j = k)) as [->|Hjk].
    + rewrite !list_lookup_total_insert_eq by lia.
      rewrite decide_True by lia. rewrite IH, decide_False by lia.
      by destruct (Spec.debounce _ _ _) as [[? ? ?] ?].
    + rewrite !list_lookup_total_insert_ne by done.
      fold (channel j (polled e w k)). rewrite IH.
      destruct (decide (j < k)%nat), (decide (j < S k)%nat); done || lia.
Qed.

Lemma loop_channel (e : LoopEnv) (w : World) (i : nat) :
  arrays_ok w → (i < 4)%nat →
  channel i (loop e w) = (Spec.debounce (millis e) (raw e i) (channel i w)).1.
Proof.
  intros Hok Hi. rewrite loop_polled, polled_channel by (done || lia).
  by rewrite decide_True by lia.
Qed.

Lemma polled_S_out (e : LoopEnv) (w : World) (k : nat) :
  arrays_ok w → (k < 4)%nat →
  out (polled e w (S k)) =
  out (polled e w k) ++ edge_events (programMode_of e) k (edge_in_pass e w k).
Proof.
  intros Hok Hk.
  rewrite polled_S, pollInput_refines by (by apply polled_arrays_ok || lia).
  simpl. rewrite polled_channel by (done || lia).
  by rewrite decide_False by lia.
Qed.

(** The poll of input [k] appends what the mapper asks for the edge of
    channel [k], judged on the state the pass began with. *)
Lemma poll_events_edge (e : LoopEnv) (w : World) (k : nat) :
  arrays_ok w → (k < 4)%nat →
  poll_events e w k = edge_events (programMode_of e) k (edge_in_pass e w k).
Proof. intros Hok Hk. apply emitted_app. by apply polled_S_out. Qed.

Lemma pass_trace (e : LoopEnv) (w : World) :
  arrays_ok w →
  emitted w (loop e w) =
  inbound_events e w ++ poll_events e w 0 ++ poll_events e w 1 ++
  poll_events e w 2 ++ poll_events e w 3.
Proof.
  intros Hok.
  destruct (polled_0_inbound_only e w) as (_ & _ & _ & l & Hl & _).
  unfold inbound_events. rewrite (emitted_app _ _ _ Hl).
  rewrite !poll_events_edge by (done || lia).
  apply emitted_app. rewrite loop_polled.
  rewrite !polled_S_out by (done || lia). rewrite Hl.
  by rewrite <- !app_assoc.
Qed.

(** * Runs: [setup], then passes of [loop] *)

Lemma run_snoc (b : BootEnv) (es : list LoopEnv) (e : LoopEnv) :
  run b (es ++ [e]) = loop e (run b es).
Proof. unfold run. by rewrite foldl_app. Qed.

Lemma setup_arrays_ok (b : BootEnv) : arrays_ok (setup b power_on).
Proof. by split_and!. Qed.

Lemma setup_channel (b : BootEnv) (i : nat) :
  (i < 4)%nat →
  channel i (setup b power_on) =
  Spec.mkInputState (bootRead b (inputPins !!! i))
                    (bootRead b (inputPins !!! i)) (bootMillis b i).
Proof.
  intros Hi. destruct i as [|[|[|[|?]]]]; try lia; reflexivity.
Qed.

Lemma loop_arrays_ok (e : LoopEnv) (w : World) :
  arrays_ok w → arrays_ok (loop e w).
Proof. rewrite loop_polled. apply polled_arrays_ok. Qed.

Lemma run_arrays_ok (b : BootEnv) (es : list LoopEnv) : arrays_ok (run b es).
Proof.
  induction es as [|e es IH] using rev_ind.
  - apply setup_arrays_ok.
  - rewrite run_snoc. by apply loop_arrays_ok.
Qed.

Lemma debounce_raw (now : Z) (r : bool) (s : Spec.InputState) :
  Spec.rawLastRead (Spec.debounce now r s).1 = r.
Proof.
  unfold Spec.debounce.
  destruct (decide (r = Spec.rawLastRead s)) as [Heq|Hne].
  - rewrite (bool_decide_eq_false_2 (r ≠ _)) by naive_solver.
    by case_bool_decide.
  - rewrite (bool_decide_eq_true_2 (r ≠ _)) by done. simpl.
    by case_bool_decide.
Qed.

(** A raw change restarts the window: no edge, and the timestamp is [now]. *)
Lemma debounce_change (now : Z) (r : bool) (s : Spec.InputState) :
  r ≠ Spec.rawLastRead s →
  Spec.debounce now r s = (Spec.mkInputState r (Spec.stableLevel s) now, None).
Proof.
  intros Hne. unfold Spec.debounce.
  rewrite (bool_decide_eq_true_2 (r ≠ _)) by done. simpl.
  rewrite ulong_sub_diag.
  rewrite bool_decide_eq_false_2; [done|].
  unfold Spec.DEBOUNCE_INTERVAL. lia.
Qed.

(** With an unchanged raw level the engine either commits it, when the
    window has elapsed and the level differs from the stable one, or leaves
    the state as it is. *)
Lemma debounce_steady (now : Z) (s : Spec.InputState) :
  Spec.debounce now (Spec.rawLastRead s) s =
  if bool_decide (10 ≤ ulong_sub now (Spec.lastChangeTimestamp s)
                  ∧ Spec.rawLastRead s ≠ Spec.stableLevel s)
  then (Spec.mkInputState (Spec.rawLastRead s) (Spec.rawLastRead s)
                          (Spec.lastChangeTimestamp s),
        Some (Spec.direction (Spec.rawLastRead s)))
  else (s, None).
Proof.
  unfold Spec.debounce.
  by rewrite (bool_decide_eq_false_2 (_ ≠ _)) by naive_solver.
Qed.

Lemma run_raw (b : BootEnv) (es : list LoopEnv) (i : nat) :
  (i < 4)%nat → Spec.rawLastRead (channel i (run b es)) = last_raw b es i.
Proof.
  intros Hi. destruct es as [|e es _] using rev_ind.
  - change (run b []) with (setup b power_on). by rewrite setup_channel.
  - rewrite run_snoc, loop_channel by (apply run_arrays_ok || done).
    rewrite debounce_raw. unfold last_raw. by rewrite last_snoc.
Qed.

Lemma last_raw_settled (b : BootEnv) (es1 es2 : list LoopEnv) (c : LoopEnv) (i : nat) :
  Forall (λ x, raw x i = raw c i) es2 →
  last_raw b (es1 ++ c :: es2) i = raw c i.
Proof.
  intros Hall. unfold last_raw. rewrite last_app_cons.
  destruct es2 as [|x es2 _] using rev_ind; [done|].
  rewrite app_comm_cons, last_snoc. simpl.
  apply Forall_app in Hall as [_ Hx]. by inversion Hx.
Qed.

(** Either the stable level of channel [i] is the last raw level, or some
    pass saw the raw level change, every later pass read the same level, and
    the timestamp of the channel is the [millis()] of that pass. *)
Lemma run_last_change (b : BootEnv) (es : list LoopEnv) (i : nat) :
  (i < 4)%nat →
  Spec.stableLevel (channel i (run b es)) = Spec.rawLastRead (channel i (run b es))
  ∨ ∃ es1 c es2,
      es = es1 ++ c :: es2 ∧
      raw c i ≠ last_raw b es1 i ∧
      Forall (λ x, raw x i = raw c i) es2 ∧
      Spec.lastChangeTimestamp (channel i (run b es)) = millis c.
Proof.
  intros Hi. induction es as [|e es IH] using rev_ind.
  - left. change (run b []) with (setup b power_on). by rewrite setup_channel.
  - rewrite run_snoc, loop_channel by (apply run_arrays_ok || done).
    pose proof (run_raw b es i Hi) as Hraw.
    destruct (decide (raw e i = Spec.rawLastRead (channel i (run b es))))
      as [Heq|Hne].
    + rewrite Heq, debounce_steady.
      case_bool_decide as Hcommit; simpl.
      * destruct IH as [Hst|(es1 & c & es2 & -> & Hc & Hall & Hts)];
          [destruct Hcommit as [_ Hcommit]; congruence|].
        right. exists es1, c, (es2 ++ [e]). split_and!; try done.
        -- by rewrite <- app_assoc.
        -- apply Forall_app. split; [done|]. apply Forall_singleton.
           rewrite Heq, Hraw. by apply last_raw_settled.
      * destruct IH as [Hst|(es1 & c & es2 & -> & Hc & Hall & Hts)];
          [by left|].
        right. exists es1, c, (es2 ++ [e]). split_and!; try done.
        -- by rewrite <- app_assoc.
        -- apply Forall_app. split; [done|]. apply Forall_singleton.
           rewrite Heq, Hraw. by apply last_raw_settled.
    + right. rewrite debounce_change by done. simpl.
      exists es, e, []. split_and!; try done. by rewrite <- Hraw.
Qed.

Lemma ulong_sub_millis (a b : Z) :
  ulong_sub (millis_at a) (millis_at b) = (a - b) mod ULONG_MAX1.
Proof. unfold ulong_sub, millis_at. by rewrite <- Zminus_mod. Qed.

Lemma elapsed_real (a b : Z) :
  b ≤ a → 10 ≤ ulong_sub (millis_at a) (millis_at b) → 10 ≤ a - b.
Proof.
  intros Hle. rewrite ulong_sub_millis. intros Hel.
  pose proof (Z.mod_le (a - b) ULONG_MAX1 ltac:(lia) ltac:(done)). lia.
Qed.

(** What an emitted edge tells about the step that emitted it. *)
Lemma debounce_edge (now : Z) (r : bool) (s : Spec.InputState) (ed : Spec.edge) :
  (Spec.debounce now r s).2 = Some ed →
  r = Spec.rawLastRead s ∧
  10 ≤ ulong_sub now (Spec.lastChangeTimestamp s) ∧
  Spec.stableLevel s ≠ r ∧
  Spec.stableLevel (Spec.debounce now r s).1 = r ∧
  ed = Spec.direction r.
Proof.
  destruct (decide (r = Spec.rawLastRead s)) as [->|Hne].
  - rewrite debounce_steady. case_bool_decide as Hc; simpl; [|done].
    destruct Hc as [Hel Hst]. intros [= <-]. by split_and!.
  - by rewrite debounce_change.
Qed.

Lemma debounce_no_edge (now : Z) (r : bool) (s : Spec.InputState) :
  (Spec.debounce now r s).2 = None →
  Spec.stableLevel (Spec.debounce now r s).1 = Spec.stableLevel s.
Proof.
  destruct (decide (r = Spec.rawLastRead s)) as [->|Hne].
  - rewrite debounce_steady. by case_bool_decide.
  - by rewrite debounce_change.
Qed.

Lemma about_is_send (i : nat) (ev : event) : about i ev = true → is_send ev = true.
Proof. by destruct ev. Qed.

Lemma about_no_sends (i : nat) (l : list event) :
  sends l = [] → List.filter (about i) l = [].
Proof.
  unfold sends. induction l as [|ev l IH]; [done|]. simpl.
  destruct (about i ev) eqn:Hab.
  - by rewrite (about_is_send i ev Hab).
  - destruct (is_send ev); [done|]. apply IH.
Qed.

Lemma about_edge_events (pm : bool) (i j : nat) (ed : option Spec.edge) :
  (i < 4)%nat → (j < 4)%nat →
  List.filter (about i) (edge_events pm j ed) =
  if decide (i = j) then sends (edge_events pm j ed) else [].
Proof.
  intros Hi Hj.
  destruct i as [|[|[|[|?]]]], j as [|[|[|[|?]]]]; try lia;
    destruct ed as [[|]|], pm; reflexivity.
Qed.

(** The MIDI sends of a whole pass that name channel [i] are the sends of
    the poll of input [i]. *)
Lemma about_pass (e : LoopEnv) (w : World) (i : nat) :
  arrays_ok w → (i < 4)%nat →
  List.filter (about i) (emitted w (loop e w)) = sends (poll_events e w i).
Proof.
  intros Hok Hi. rewrite pass_trace by done.
  destruct (polled_0_inbound_only e w) as (_ & _ & _ & l & Hl & Hq).
  unfold inbound_events. rewrite (emitted_app _ _ _ Hl).
  rewrite !poll_events_edge by (done || lia).
  rewrite !List.filter_app, (about_no_sends i l Hq).
  rewrite !about_edge_events by lia.
  destruct i as [|[|[|[|?]]]]; try lia; simpl; by rewrite ?app_nil_r.
Qed.

Lemma stable_is_channel (i : nat) (w : World) :
  lastStableState w !!! i = Spec.stableLevel (channel i w).
Proof. reflexivity. Qed.

(** In a pass, an edge of channel [i] is what changes its stable level, and
    what makes its poll append anything. *)
Lemma pass_edge_or_nothing (e : LoopEnv) (w : World) (i : nat) :
  arrays_ok w → (i < 4)%nat →
  edge_in_pass e w i = None →
  lastStableState (loop e w) !!! i = lastStableState w !!! i ∧
  poll_events e w i = [] ∧
  List.filter (about i) (emitted w (loop e w)) = [].
Proof.
  intros Hok Hi Hnone.
  rewrite about_pass, poll_events_edge, Hnone by done.
  rewrite !stable_is_channel, loop_channel by done.
  split_and!; try done. by apply debounce_no_edge.
Qed.

(** C1. Take any boot, any passes [es] of the loop and a further pass [e]
    that no earlier pass is later than by the clock, and a channel [i]. If
    pass [e] commits the stable level of the channel, or its poll appends
    anything to the trace, or the pass sends a MIDI message that names the
    channel, then some earlier pass [c] read a raw level different from the
    read before it, every pass after [c] up to and including [e] read the
    level [c] read, and at least [DEBOUNCE_MS] = 10 ms lie between [c] and
    [e]. And a pass that reads a raw level different from the last read
    stores its own [millis()] as the timestamp of the channel, commits
    nothing and appends nothing for the channel. *)
Theorem no_edge_until_raw_level_settled
    (b : BootEnv) (es : list LoopEnv) (e : LoopEnv) (i : nat) :
  (i < 4)%nat →
  Forall (λ x, clock x ≤ clock e) es →
  (lastStableState (loop e (run b es)) !!! i ≠ lastStableState (run b es) !!! i
   ∨ poll_events e (run b es) i ≠ []
   ∨ List.filter (about i) (emitted (run b es) (loop e (run b es))) ≠ [] →
   ∃ es1 c es2,
     es = es1 ++ c :: es2 ∧
     raw c i ≠ last_raw b es1 i ∧
     Forall (λ x, raw x i = raw c i) (es2 ++ [e]) ∧
     DEBOUNCE_MS ≤ clock e - clock c) ∧
  (raw e i ≠ last_raw b es i →
   lastDebounceTime (loop e (run b es)) !!! i = millis e ∧
   lastStableState (loop e (run b es)) !!! i = lastStableState (run b es) !!! i ∧
   poll_events e (run b es) i = [] ∧
   List.filter (about i) (emitted (run b es) (loop e (run b es))) = []).
Proof.
  intros Hi Hclock. pose proof (run_arrays_ok b es) as Hok.
  pose proof (run_raw b es i Hi) as Hraw.
  split.
  - intros Hedge.
    destruct (edge_in_pass e (run b es) i) as [ed|] eqn:Hed; last first.
    { destruct (pass_edge_or_nothing e _ i Hok Hi Hed) as (Hs & Hp & Ha).
      destruct Hedge as [Hx|[Hx|Hx]]; by destruct Hx. }
    apply debounce_edge in Hed as (Hsame & Hel & Hst & _ & _).
    destruct (run_last_change b es i Hi)
      as [Hsettled|(es1 & c & es2 & Hes & Hc & Hall & Hts)].
    { congruence. }
    exists es1, c, es2. split_and!; try done.
    + apply Forall_app. split; [done|]. apply Forall_singleton.
      rewrite Hsame, Hraw, Hes. by apply last_raw_settled.
    + rewrite Hts in Hel. unfold millis in Hel. apply elapsed_real; [|done].
      rewrite Hes in Hclock. apply Forall_app in Hclock as [_ Hcl].
      by apply Forall_cons in Hcl as [Hcl _].
  - intros Hchange. rewrite <- Hraw in Hchange.
    assert (edge_in_pass e (run b es) i = None) as Hnone.
    { unfold edge_in_pass. by rewrite debounce_change. }
    destruct (pass_edge_or_nothing e _ i Hok Hi Hnone) as (? & ? & ?).
    split_and!; try done.
    change (lastDebounceTime (loop e (run b es)) !!! i)
      with (Spec.lastChangeTimestamp (channel i (loop e (run b es)))).
    rewrite loop_channel by done. by rewrite debounce_change.
Qed.

Lemma no_edge_until_raw_level_settled_witness :
  ∃ es1 c es2,
    [pass_at 0 (only_pin 4)] = es1 ++ c :: es2 ∧
    raw c 2 ≠ last_raw boot_all_low es1 2 ∧
    Forall (λ x, raw x 2 = raw c 2) (es2 ++ [pass_at 10 (only_pin 4)]) ∧
    DEBOUNCE_MS ≤ clock (pass_at 10 (only_pin 4)) - clock c.
Proof.
  assert (2 < 4)%nat as Hi by lia.
  assert (Forall (λ x, clock x ≤ clock (pass_at 10 (only_pin 4)))
            [pass_at 0 (only_pin 4)]) as Hclock.
  { apply Forall_singleton. simpl. lia. }
  destruct (no_edge_until_raw_level_settled boot_all_low
              [pass_at 0 (only_pin 4)] (pass_at 10 (only_pin 4)) 2 Hi Hclock)
    as [Hedge _].
  apply Hedge. left. vm_compute. discriminate.
Defined.

(** * The bounce scenario on input pin 4 *)

Lemma ULONG_MAX1_eq : ULONG_MAX1 = 4294967296.
Proof. reflexivity. Qed.

Lemma elapsed_offset (a b : Z) :
  0 ≤ a - b < ULONG_MAX1 → ulong_sub (millis_at a) (millis_at b) = a - b.
Proof. intros Hsmall. rewrite ulong_sub_millis. by apply Z.mod_small. Qed.

Lemma debounce_steady_fields (now : Z) (r st : bool) (ts : Z) :
  Spec.debounce now r (Spec.mkInputState r st ts) =
  if bool_decide (10 ≤ ulong_sub now ts ∧ r ≠ st)
  then (Spec.mkInputState r r ts, Some (Spec.direction r))
  else (Spec.mkInputState r st ts, None).
Proof. apply (debounce_steady now (Spec.mkInputState r st ts)). Qed.

(** One pass of the scenario, on the state of channel 2: the step of the
    debounce engine at pass [k] leads from [bounce_state k] to
    [bounce_state (S k)] and emits an edge at pass 16 only. *)
Lemma bounce_step (b : BootEnv) (t0 : Z) (k : nat) :
  Spec.debounce (millis_at (t0 + Z.of_nat k)) (bounce_level k)
                (bounce_state b t0 k) =
  (bounce_state b t0 (S k),
   if decide (k = 16)%nat then Some Spec.Activated else None).
Proof.
  unfold bounce_state, bounce_level, HIGH, LOW.
  destruct (decide (k < 3 ∨ 6 ≤ k)%nat) as [Hhigh|Hlow].
  - rewrite (bool_decide_eq_true_2 (k < 3 ∨ 6 ≤ k)%nat) by done.
    repeat (case_decide; try lia); subst;
      rewrite ?debounce_steady_fields, ?debounce_change by done;
      try (simpl; by rewrite ?Z.add_0_r);
      try (assert (k = 6%nat) as -> by lia; done).
    + (* passes 1 and 2: the window opened at pass 0 is still running *)
      rewrite elapsed_offset by (rewrite ULONG_MAX1_eq; lia).
      by rewrite bool_decide_eq_false_2 by lia.
    + (* passes 7 to 15: the window opened at pass 6 is still running *)
      rewrite elapsed_offset by (rewrite ULONG_MAX1_eq; lia).
      by rewrite bool_decide_eq_false_2 by lia.
    + (* pass 16: the window has elapsed *)
      rewrite elapsed_offset by (rewrite ULONG_MAX1_eq; lia).
      by rewrite bool_decide_eq_true_2 by (split; [simpl; lia | done]).
    + (* later passes: the level is committed already *)
      by rewrite bool_decide_eq_false_2 by (intros [_ ?]; done).
  - rewrite (bool_decide_eq_false_2 (k < 3 ∨ 6 ≤ k)%nat) by done.
    repeat (case_decide; try lia); subst;
      rewrite ?debounce_steady_fields, ?debounce_change by done;
      try done;
      try (assert (k = 3%nat) as -> by lia; done).
    by rewrite bool_decide_eq_false_2 by (intros [_ ?]; done).
Qed.

Section BounceScenario.
Variables (b : BootEnv) (es : list LoopEnv) (t0 : Z).
Hypothesis boot_low : bootRead b 4 = LOW.
Hypothesis one_pass_per_ms :
  ∀ k e, es !! k = Some e → clock e = t0 + Z.of_nat k.
Hypothesis pin4_bounces :
  ∀ k e, es !! k = Some e → digitalRead e 4 = bounce_level k.

Lemma bounce_run_state (k : nat) :
  (k ≤ length es)%nat → channel 2 (run b (take k es)) = bounce_state b t0 k.
Proof.
  induction k as [|k IH]; intros Hk.
  - rewrite take_0. change (run b []) with (setup b power_on).
    rewrite setup_channel by lia.
    change (inputPins !!! 2%nat) with 4. by rewrite boot_low.
  - destruct (lookup_lt_is_Some_2 es k ltac:(lia)) as [e He].
    rewrite (take_S_r _ _ _ He), run_snoc.
    rewrite loop_channel by (apply run_arrays_ok || lia).
    rewrite IH by lia. unfold millis, raw.
    change (inputPins !!! 2%nat) with 4.
    rewrite (one_pass_per_ms k e He), (pin4_bounces k e He).
    by rewrite bounce_step.
Qed.

Lemma bounce_run_edge (k : nat) (e : LoopEnv) :
  es !! k = Some e →
  edge_in_pass e (run b (take k es)) 2 =
  if decide (k = 16)%nat then Some Spec.Activated else None.
Proof.
  intros He. unfold edge_in_pass.
  rewrite bounce_run_state by (apply lookup_lt_Some in He; lia).
  unfold millis, raw. change (inputPins !!! 2%nat) with 4.
  rewrite (one_pass_per_ms k e He), (pin4_bounces k e He).
  by rewrite bounce_step.
Qed.
End BounceScenario.

(** C2. A run polls once per millisecond from time [t0] on; [setup] read
    pin 4 LOW, and the passes read it HIGH at 0, 1, 2 ms, LOW at 3, 4, 5 ms
    and HIGH from 6 ms on; the other pins, the mode pin and the MIDI queues
    are arbitrary. Then the poll of channel 2 appends nothing in any pass but
    the one at 16 ms, where it sends one message on USB and on serial MIDI
    and prints its line: Note On 62 with velocity 110 in note mode, Program
    Change 2 in program mode. These are the only MIDI sends of the run that
    name channel 2, and the stable level of the channel is HIGH from the
    pass at 16 ms on and LOW before. *)
Theorem bounce_scenario_one_activation_at_16ms
    (b : BootEnv) (es : list LoopEnv) (t0 : Z) :
  bootRead b 4 = LOW →
  (∀ k e, es !! k = Some e → clock e = t0 + Z.of_nat k) →
  (∀ k e, es !! k = Some e → digitalRead e 4 = bounce_level k) →
  ∀ k e, es !! k = Some e →
    let w := run b (take k es) in
    let m := if programMode_of e
             then ProgramChange 2 MIDI_CHANNEL
             else NoteOn 62 NOTE_ON_VELOCITY MIDI_CHANNEL in
    poll_events e w 2 = (if decide (k = 16)%nat then transmitted m else []) ∧
    List.filter (about 2) (emitted w (loop e w)) =
      (if decide (k = 16)%nat then [UsbSend m; SerialSend m] else []) ∧
    lastStableState (loop e w) !!! 2%nat = bool_decide (16 ≤ k)%nat.
Proof.
  intros Hboot Hclock Hpin k e He w m.
  pose proof (run_arrays_ok b (take k es)) as Hok.
  pose proof (bounce_run_edge b es t0 Hboot Hclock Hpin k e He) as Hedge.
  fold w in Hedge.
  assert (poll_events e w 2 =
          if decide (k = 16)%nat then transmitted m else []) as Hpoll.
  { rewrite poll_events_edge, Hedge by (done || lia).
    case_decide; [|done]. unfold m. by destruct (programMode_of e). }
  split_and!.
  - done.
  - rewrite about_pass, Hpoll by (done || lia). by case_decide.
  - rewrite stable_is_channel.
    assert (loop e w = run b (take (S k) es)) as ->.
    { by rewrite (take_S_r _ _ _ He), run_snoc. }
    rewrite (bounce_run_state b es t0 Hboot Hclock Hpin)
      by (apply lookup_lt_Some in He; lia).
    unfold bounce_state.
    clear Hedge Hpoll. unfold bool_decide. repeat case_decide; try lia; done.
Qed.

Lemma bounce_run_lookup (n k : nat) (e : LoopEnv) :
  bounce_run n !! k = Some e → e = bounce_pass k.
Proof.
  unfold bounce_run. rewrite list_lookup_fmap. intros He.
  destruct (seq 0 n !! k) as [j|] eqn:Hj; [|done].
  apply lookup_seq in Hj as [-> _]. by injection He as <-.
Qed.

Lemma bounce_scenario_one_activation_at_16ms_witness :
  let w := run boot_all_low (take 16 (bounce_run 20)) in
  let m := NoteOn 62 NOTE_ON_VELOCITY MIDI_CHANNEL in
  poll_events (bounce_pass 16) w 2 = transmitted m ∧
  List.filter (about 2) (emitted w (loop (bounce_pass 16) w)) =
    [UsbSend m; SerialSend m] ∧
  lastStableState (loop (bounce_pass 16) w) !!! 2%nat = true.
Proof.
  apply (bounce_scenario_one_activation_at_16ms boot_all_low (bounce_run 20) 0).
  - reflexivity.
  - intros k e He. apply bounce_run_lookup in He as ->. simpl. lia.
  - intros k e He. apply bounce_run_lookup in He as ->. reflexivity.
  - reflexivity.
Defined.

(** * Confirmed edges and the messages they cause *)

(** A pass that changes the stable level of channel [i] does so by an edge
    of the debounce engine, in the direction of the level it commits. *)
Lemma commit_is_edge (e : LoopEnv) (w : World) (i : nat) :
  arrays_ok w → (i < 4)%nat →
  lastStableState (loop e w) !!! i ≠ lastStableState w !!! i →
  edge_in_pass e w i =
    Some (Spec.direction (lastStableState (loop e w) !!! i)) ∧
  lastStableState (loop e w) !!! i = raw e i.
Proof.
  intros Hok Hi Hchange.
  destruct (edge_in_pass e w i) as [ed|] eqn:Hed.
  - apply debounce_edge in Hed as (_ & _ & _ & Hst & ->).
    rewrite stable_is_channel, loop_channel by done. by rewrite Hst.
  - by destruct (pass_edge_or_nothing e w i Hok Hi Hed) as (? & _).
Qed.

Lemma edge_is_commit (e : LoopEnv) (w : World) (i : nat) (ed : Spec.edge) :
  arrays_ok w → (i < 4)%nat →
  edge_in_pass e w i = Some ed →
  lastStableState (loop e w) !!! i = raw e i ∧
  lastStableState w !!! i = negb (raw e i) ∧
  ed = Spec.direction (raw e i).
Proof.
  intros Hok Hi Hed.
  apply debounce_edge in Hed as (_ & _ & Hne & Hst & ->).
  rewrite !stable_is_channel, loop_channel by done.
  split_and!; try done.
  by destruct (Spec.stableLevel (channel i w)), (raw e i).
Qed.

(** C3. In a pass whose mode pin reads LOW, a channel whose stable level
    the pass takes from LOW to HIGH (a confirmed "activated" edge, inputs
    being active-high) has its poll append exactly: Note On on USB, the same
    Note On on serial MIDI, and the diagnostic line; the note is the one
    configured for the channel (60 + i), the velocity 110, the MIDI channel
    1. No other MIDI send of the pass names the channel. *)
Theorem activated_edge_in_note_mode_sends_one_noteOn
    (b : BootEnv) (es : list LoopEnv) (e : LoopEnv) (i : nat) :
  (i < 4)%nat →
  digitalRead e MODE_PIN = LOW →
  lastStableState (run b es) !!! i = LOW →
  lastStableState (loop e (run b es)) !!! i = HIGH →
  let m := NoteOn (noteNumbers !!! i) NOTE_ON_VELOCITY MIDI_CHANNEL in
  poll_events e (run b es) i = [UsbSend m; SerialSend m; Println (sendLine m)] ∧
  List.filter (about i) (emitted (run b es) (loop e (run b es))) =
    [UsbSend m; SerialSend m] ∧
  m = NoteOn (60 + Z.of_nat i) 110 1.
Proof.
  intros Hi Hmode Hlow Hhigh m. pose proof (run_arrays_ok b es) as Hok.
  destruct (commit_is_edge e (run b es) i Hok Hi) as [Hed _];
    [by rewrite Hlow, Hhigh|].
  rewrite Hhigh in Hed.
  assert (programMode_of e = false) as Hpm.
  { unfold programMode_of. by rewrite Hmode. }
  assert (poll_events e (run b es) i = transmitted m) as Hpoll.
  { by rewrite poll_events_edge, Hed, Hpm. }
  split_and!.
  - done.
  - by rewrite about_pass, Hpoll.
  - unfold m. destruct i as [|[|[|[|?]]]]; try lia; reflexivity.
Qed.

Lemma activated_edge_in_note_mode_sends_one_noteOn_witness :
  let w := run boot_all_low [pass_at 0 (only_pin 3)] in
  let e := pass_at 10 (only_pin 3) in
  let m := NoteOn (noteNumbers !!! 1%nat) NOTE_ON_VELOCITY MIDI_CHANNEL in
  poll_events e w 1 = [UsbSend m; SerialSend m; Println (sendLine m)] ∧
  List.filter (about 1) (emitted w (loop e w)) = [UsbSend m; SerialSend m] ∧
  m = NoteOn (60 + Z.of_nat 1) 110 1.
Proof.
  apply (activated_edge_in_note_mode_sends_one_noteOn boot_all_low
           [pass_at 0 (only_pin 3)] (pass_at 10 (only_pin 3)) 1).
  - lia.
  - reflexivity.
  - reflexivity.
  - reflexivity.
Defined.

(** C7. In a pass whose mode pin reads HIGH, a channel whose stable level
    the pass takes from HIGH to LOW (a confirmed "deactivated" edge) has its
    poll append nothing at all, and no MIDI send of the pass, of any of the
    three kinds and on either transport, names the channel. *)
Theorem deactivated_edge_in_program_mode_sends_nothing
    (b : BootEnv) (es : list LoopEnv) (e : LoopEnv) (i : nat) :
  (i < 4)%nat →
  digitalRead e MODE_PIN = HIGH →
  lastStableState (run b es) !!! i = HIGH →
  lastStableState (loop e (run b es)) !!! i = LOW →
  poll_events e (run b es) i = [] ∧
  List.filter (about i) (emitted (run b es) (loop e (run b es))) = [].
Proof.
  intros Hi Hmode Hhigh Hlow. pose proof (run_arrays_ok b es) as Hok.
  destruct (commit_is_edge e (run b es) i Hok Hi) as [Hed _];
    [by rewrite Hlow, Hhigh|].
  rewrite Hlow in Hed.
  assert (programMode_of e = true) as Hpm.
  { unfold programMode_of. by rewrite Hmode. }
  assert (poll_events e (run b es) i = []) as Hpoll.
  { by rewrite poll_events_edge, Hed, Hpm. }
  split; [done|]. by rewrite about_pass, Hpoll.
Qed.

Lemma deactivated_edge_in_program_mode_sends_nothing_witness :
  let w := run (mkBootEnv (λ _, HIGH) (λ _, 0)) [pass_at 0 (only_pin 12)] in
  let e := pass_at 10 (only_pin 12) in
  poll_events e w 1 = [] ∧ List.filter (about 1) (emitted w (loop e w)) = [].
Proof.
  apply (deactivated_edge_in_program_mode_sends_nothing
           (mkBootEnv (λ _, HIGH) (λ _, 0))
           [pass_at 0 (only_pin 12)] (pass_at 10 (only_pin 12)) 1).
  - lia.
  - reflexivity.
  - reflexivity.
  - reflexivity.
Defined.

(** * Several edges in one pass *)

Lemma about_either_edge_events (pm : bool) (i j k : nat) (ed : option Spec.edge) :
  (i < 4)%nat → (j < 4)%nat → (k < 4)%nat →
  List.filter (λ ev, about i ev || about j ev) (edge_events pm k ed) =
  if decide (k = i ∨ k = j) then sends (edge_events pm k ed) else [].
Proof.
  intros Hi Hj Hk.
  destruct i as [|[|[|[|?]]]], j as [|[|[|[|?]]]], k as [|[|[|[|?]]]];
    try lia; destruct ed as [[|]|], pm; reflexivity.
Qed.

Lemma about_either_no_sends (i j : nat) (l : list event) :
  sends l = [] → List.filter (λ ev, about i ev || about j ev) l = [].
Proof.
  unfold sends. induction l as [|ev l IH]; [done|]. simpl.
  destruct (about i ev || about j ev) eqn:Hab.
  - apply orb_true_iff in Hab as [Hab|Hab];
      by rewrite (about_is_send _ ev Hab).
  - destruct (is_send ev); [done|]. apply IH.
Qed.

(** C6. One pass appends, in this order: what the inbound messages cause,
    then what the poll of input 0 appends, then input 1, input 2, input 3.
    Every channel for which the debounce engine confirms an edge in the pass
    (judged on the state the pass began with, so whatever the other channels
    do) has its stable level committed and its messages appended in that
    pass. For two channels [i < j], the MIDI sends of the pass that name
    either of them are exactly the sends of [i], on USB and then on serial,
    followed by the sends of [j]. *)
Theorem simultaneous_edges_in_index_order
    (b : BootEnv) (es : list LoopEnv) (e : LoopEnv) (i j : nat) :
  (i < j)%nat → (j < 4)%nat →
  let w := run b es in
  emitted w (loop e w) =
    inbound_events e w ++ poll_events e w 0 ++ poll_events e w 1 ++
    poll_events e w 2 ++ poll_events e w 3 ∧
  sends (inbound_events e w) = [] ∧
  (∀ k ed, (k < 4)%nat → edge_in_pass e w k = Some ed →
     lastStableState (loop e w) !!! k = raw e k ∧
     lastStableState w !!! k = negb (raw e k) ∧
     poll_events e w k = edge_events (programMode_of e) k (Some ed) ∧
     sends (poll_events e w k) =
       match Spec.mapEvent (programMode_of e) k ed with
       | Some m => [UsbSend m; SerialSend m]
       | None => []
       end) ∧
  List.filter (λ ev, about i ev || about j ev) (emitted w (loop e w)) =
    sends (poll_events e w i) ++ sends (poll_events e w j).
Proof.
  intros Hij Hj w. pose proof (run_arrays_ok b es) as Hok. fold w in Hok.
  destruct (polled_0_inbound_only e w) as (_ & _ & _ & l & Hl & Hq).
  assert (inbound_events e w = l) as Hin by apply (emitted_app _ _ _ Hl).
  split_and!.
  - by apply pass_trace.
  - by rewrite Hin.
  - intros k ed Hk Hed.
    destruct (edge_is_commit e w k ed Hok Hk Hed) as (Hnew & Hold & _).
    rewrite poll_events_edge, Hed by done. split_and!; try done.
    unfold edge_events. simpl. by destruct (Spec.mapEvent _ k ed).
  - rewrite pass_trace, Hin by done.
    rewrite !poll_events_edge by (done || lia).
    rewrite !List.filter_app, (about_either_no_sends i j l Hq).
    rewrite !about_either_edge_events by lia.
    destruct i as [|[|[|[|?]]]], j as [|[|[|[|?]]]]; try lia; simpl;
      by rewrite ?app_nil_r.
Qed.

Lemma simultaneous_edges_in_index_order_witness :
  let w := run boot_all_low [pass_at 0 (λ q, bool_decide (q = 2 ∨ q = 3))] in
  let e := pass_at 10 (λ q, bool_decide (q = 2 ∨ q = 3)) in
  List.filter (λ ev, about 0 ev || about 1 ev) (emitted w (loop e w)) =
    [UsbSend (NoteOn 60 110 1); SerialSend (NoteOn 60 110 1);
     UsbSend (NoteOn 61 110 1); SerialSend (NoteOn 61 110 1)].
Proof.
  intros w e.
  assert (0 < 1)%nat as H01 by lia. assert (1 < 4)%nat as H14 by lia.
  destruct (simultaneous_edges_in_index_order boot_all_low
              [pass_at 0 (λ q, bool_decide (q = 2 ∨ q = 3))] e 0 1 H01 H14)
    as (_ & _ & _ & Horder).
  etrans; [exact Horder|]. reflexivity.
Defined.

(** * The stable level and the alternation of edges *)

Lemma edges_alternate (es : list LoopEnv) (w : World) (i : nat) :
  arrays_ok w → (i < 4)%nat →
  Spec.alternate_from (lastStableState w !!! i) (edges_from w es i).
Proof.
  intros Hok Hi. revert w Hok.
  induction es as [|e es IH]; intros w Hok; [done|]. simpl.
  specialize (IH (loop e w) (loop_arrays_ok e w Hok)).
  destruct (edge_in_pass e w i) as [ed|] eqn:Hed; simpl.
  - destruct (edge_is_commit e w i ed Hok Hi Hed) as (Hnew & Hold & ->).
    rewrite Hold, negb_involutive. split; [done|]. by rewrite <- Hnew.
  - destruct (pass_edge_or_nothing e w i Hok Hi Hed) as (Hsame & _).
    by rewrite <- Hsame.
Qed.

(** C10. On every channel and in every pass of every run: when the
    debounce engine emits an edge, the stable level was the opposite of the
    raw level just read and becomes that raw level, and the direction of the
    edge is that of the raw level; when it emits none, the stable level stays
    as it is. The poll of the channel appends what the mapper asks for that
    edge, and the arrays hold the state of the engine after the step. So the
    edges of a channel over the whole run alternate, the first one leaving
    the level [setup] read. *)
Theorem stable_level_changes_with_edges_alternating
    (b : BootEnv) (es : list LoopEnv) (i : nat) :
  (i < 4)%nat →
  (∀ e,
     let w := run b es in
     channel i (loop e w) =
       (Spec.debounce (millis e) (raw e i) (channel i w)).1 ∧
     poll_events e w i =
       edge_events (programMode_of e) i (edge_in_pass e w i) ∧
     match edge_in_pass e w i with
     | Some ed =>
         lastStableState (loop e w) !!! i = raw e i ∧
         lastStableState w !!! i = negb (raw e i) ∧
         ed = Spec.direction (raw e i)
     | None =>
         lastStableState (loop e w) !!! i = lastStableState w !!! i
     end) ∧
  Spec.alternate_from (bootRead b (inputPins !!! i))
                      (edges_from (setup b power_on) es i).
Proof.
  intros Hi. split.
  - intros e w. pose proof (run_arrays_ok b es) as Hok. fold w in Hok.
    split_and!.
    + by apply loop_channel.
    + by apply poll_events_edge.
    + destruct (edge_in_pass e w i) as [ed|] eqn:Hed.
      * by apply edge_is_commit.
      * by destruct (pass_edge_or_nothing e w i Hok Hi Hed) as (? & _).
  - pose proof (edges_alternate es (setup b power_on) i
                  (setup_arrays_ok b) Hi) as Halt.
    rewrite stable_is_channel, setup_channel in Halt by done. exact Halt.
Qed.

Lemma stable_level_changes_with_edges_alternating_witness :
  edges_from (setup boot_all_low power_on)
    [pass_at 0 (only_pin 4); pass_at 10 (only_pin 4);
     pass_at 20 (λ _, LOW); pass_at 30 (λ _, LOW); pass_at 31 (only_pin 4);
     pass_at 45 (only_pin 4)] 2 =
    [Spec.Activated; Spec.Deactivated; Spec.Activated] ∧
  Spec.alternate_from (bootRead boot_all_low (inputPins !!! 2%nat))
    (edges_from (setup boot_all_low power_on)
       [pass_at 0 (only_pin 4); pass_at 10 (only_pin 4);
        pass_at 20 (λ _, LOW); pass_at 30 (λ _, LOW); pass_at 31 (only_pin 4);
        pass_at 45 (only_pin 4)] 2).
Proof.
  split; [reflexivity|].
  apply (stable_level_changes_with_edges_alternating boot_all_low
           [pass_at 0 (only_pin 4); pass_at 10 (only_pin 4);
            pass_at 20 (λ _, LOW); pass_at 30 (λ _, LOW);
            pass_at 31 (only_pin 4); pass_at 45 (only_pin 4)] 2).
  lia.
Defined.

(** * Further properties of the sketch *)

(** ** setup *)

(** X1. Whatever the arrays and the trace held before, [setup] leaves every
    channel with the level it read on its input pin as raw and as stable
    level and with its own [millis()] as timestamp, drives the four output
    pins and the state pin HIGH, sends no MIDI message, and raises the state
    pin as its very last action. *)
Theorem setup_postcondition (b : BootEnv) (w : World) :
  arrays_ok w →
  arrays_ok (setup b w) ∧
  (∀ i, (i < 4)%nat →
     channel i (setup b w) =
     Spec.mkInputState (bootRead b (inputPins !!! i))
                       (bootRead b (inputPins !!! i)) (bootMillis b i)) ∧
  (∀ i, (i < 4)%nat → pinLevel (setup b w) !! (outputPins !!! i) = Some HIGH) ∧
  pinLevel (setup b w) !! STATE_PIN = Some HIGH ∧
  sends (emitted w (setup b w)) = [] ∧
  last (out (setup b w)) = Some (DigitalWrite STATE_PIN HIGH).
Proof.
  intros (Hs & Hr & Ht). destruct w as [st rd tm pins o]. simpl in *.
  destruct st as [|s0 [|s1 [|s2 [|s3 [|? ?]]]]]; try done.
  destruct rd as [|r0 [|r1 [|r2 [|r3 [|? ?]]]]]; try done.
  destruct tm as [|t0 [|t1 [|t2 [|t3 [|? ?]]]]]; try done.
  split_and!.
  - done.
  - intros i Hi. destruct i as [|[|[|[|?]]]]; try lia; reflexivity.
  - intros i Hi. destruct i as [|[|[|[|?]]]]; try lia; by simplify_map_eq.
  - by simplify_map_eq.
  - erewrite emitted_app; [|simpl; rewrite <- !app_assoc; reflexivity]. done.
  - simpl. by rewrite last_snoc.
Qed.

Lemma setup_postcondition_witness :
  channel 2 (setup (mkBootEnv (only_pin 4) (λ _, 7)) power_on) =
    Spec.mkInputState HIGH HIGH 7 ∧
  pinLevel (setup (mkBootEnv (only_pin 4) (λ _, 7)) power_on) !! 16 = Some HIGH.
Proof.
  destruct (setup_postcondition (mkBootEnv (only_pin 4) (λ _, 7)) power_on)
    as (_ & Hch & Hpin & _).
  { by split_and!. }
  split.
  - apply (Hch 2%nat). lia.
  - apply (Hpin 2%nat). lia.
Defined.

(** ** What a pass does to the pins and to the trace *)

Lemma polled_pinLevel (e : LoopEnv) (w : World) (k : nat) :
  arrays_ok w → (k ≤ 4)%nat →
  pinLevel (polled e w k) = pinLevel (polled e w 0).
Proof.
  intros Hok. induction k as [|k IH]; intros Hk; [done|].
  rewrite polled_S, pollInput_refines by (by apply polled_arrays_ok || lia).
  simpl. apply IH. lia.
Qed.

Lemma loop_out (e : LoopEnv) (w : World) :
  arrays_ok w → out (loop e w) = out w ++ emitted w (loop e w).
Proof.
  intros Hok. rewrite pass_trace by done.
  destruct (polled_0_inbound_only e w) as (_ & _ & _ & l & Hl & _).
  unfold inbound_events. rewrite (emitted_app _ _ _ Hl).
  rewrite !poll_events_edge by (done || lia).
  rewrite loop_polled, !polled_S_out by (done || lia). rewrite Hl.
  by rewrite <- !app_assoc.
Qed.

Lemma run_run_from (b : BootEnv) (es : list LoopEnv) :
  run b es = run_from (setup b power_on) es.
Proof. reflexivity. Qed.

Lemma run_from_app (w : World) (es es' : list LoopEnv) :
  run_from w (es ++ es') = run_from (run_from w es) es'.
Proof. unfold run_from. by rewrite foldl_app. Qed.

Lemma run_from_arrays_ok (w : World) (es : list LoopEnv) :
  arrays_ok w → arrays_ok (run_from w es).
Proof.
  revert w. induction es as [|e es IH]; intros w Hok; [done|].
  simpl. apply IH. by apply loop_arrays_ok.
Qed.

Lemma run_from_out (w : World) (es : list LoopEnv) :
  arrays_ok w → out (run_from w es) = out w ++ emitted w (run_from w es).
Proof.
  revert w. induction es as [|e es IH]; intros w Hok.
  - simpl. by rewrite emitted_refl, app_nil_r.
  - simpl. rewrite (IH (loop e w)) by (by apply loop_arrays_ok).
    rewrite (loop_out e w Hok), <- app_assoc.
    symmetry. f_equal. apply emitted_app.
    rewrite (IH (loop e w)) by (by apply loop_arrays_ok).
    by rewrite (loop_out e w Hok), <- app_assoc.
Qed.

(** The trace of several passes is the trace of the first followed by the
    trace of the others. *)
Lemma emitted_run_from_cons (w : World) (e : LoopEnv) (es : list LoopEnv) :
  arrays_ok w →
  emitted w (run_from w (e :: es)) =
  emitted w (loop e w) ++ emitted (loop e w) (run_from (loop e w) es).
Proof.
  intros Hok. apply emitted_app. simpl.
  rewrite (run_from_out (loop e w)) by (by apply loop_arrays_ok).
  by rewrite (loop_out e w Hok), <- app_assoc.
Qed.

Lemma output_pin_driven (i : nat) :
  (i < 4)%nat → outputPins !!! i ∈ driven_pins ∧ outputPins !!! i ≠ STATE_PIN.
Proof.
  intros Hi.
  destruct i as [|[|[|[|?]]]]; try lia;
    (split; [by apply (bool_decide_unpack _); vm_compute | done]).
Qed.

Lemma deliver_pins (w : World) (m : inbound) :
  dom (pinLevel w) = driven_pins →
  dom (pinLevel (deliver w m)) = driven_pins ∧
  pinLevel (deliver w m) !! STATE_PIN = pinLevel w !! STATE_PIN.
Proof.
  intros Hdom.
  assert (∀ level n,
    dom (pinLevel (noteScan noteNumbers outputPins level n 0 4 w)) = driven_pins ∧
    pinLevel (noteScan noteNumbers outputPins level n 0 4 w) !! STATE_PIN =
      pinLevel w !! STATE_PIN) as Hscan.
  { intros level n.
    destruct (noteScan_configured level n w) as [[_ ->]|(i & Hi & ->)]; [done|].
    apply lookup_lt_Some in Hi. simpl in Hi.
    destruct (output_pin_driven i Hi) as [Hin Hne]. simpl. split.
    - rewrite dom_insert_L, Hdom. apply subseteq_union_1_L.
      by apply singleton_subseteq_l.
    - by rewrite lookup_insert_ne. }
  destruct m as [c n v|c n v|]; simpl; [| |done].
  - unfold handleNoteOn. rewrite processNoteOn_channel_free. apply Hscan.
  - unfold handleNoteOff. rewrite processNoteOff_channel_free. apply Hscan.
Qed.

Lemma drain_pins (queue : list inbound) (w : World) :
  dom (pinLevel w) = driven_pins →
  dom (pinLevel (drain queue w)) = driven_pins ∧
  pinLevel (drain queue w) !! STATE_PIN = pinLevel w !! STATE_PIN.
Proof.
  unfold drain. revert w. induction queue as [|m queue IH]; intros w Hdom; [done|].
  simpl. destruct (deliver_pins w m Hdom) as [Hd Hs].
  destruct (IH _ Hd) as [Hd' Hs']. split; [done|]. by rewrite Hs'.
Qed.

(** X2. In every run the sketch drives the four output pins and the state
    pin and no other pin, and the state pin stays HIGH once [setup] has
    raised it. *)
Theorem only_outputs_and_state_pin_driven (b : BootEnv) (es : list LoopEnv) :
  dom (pinLevel (run b es)) = driven_pins ∧
  pinLevel (run b es) !! STATE_PIN = Some HIGH.
Proof.
  induction es as [|e es [IHd IHs]] using rev_ind.
  - split; [|by simplify_map_eq].
    by apply (bool_decide_unpack _); vm_compute.
  - rewrite run_snoc, loop_polled.
    rewrite polled_pinLevel, polled_0 by (apply run_arrays_ok || lia).
    destruct (drain_pins (serialQueue e) _ IHd) as [Hd1 Hs1].
    destruct (drain_pins (usbQueue e) _ Hd1) as [Hd2 Hs2].
    split; [done|]. by rewrite Hs2, Hs1.
Qed.

(** ** The other two rules of the mapping from edges to messages *)

(** X3. In a pass whose mode pin reads HIGH, a channel whose stable level
    the pass takes from LOW to HIGH has its poll append exactly: Program
    Change with the program of the channel (its index) on MIDI channel 1 on
    USB, the same on serial MIDI, and the diagnostic line. No other MIDI
    send of the pass names the channel. *)
Theorem activated_edge_in_program_mode_sends_program_change
    (b : BootEnv) (es : list LoopEnv) (e : LoopEnv) (i : nat) :
  (i < 4)%nat →
  digitalRead e MODE_PIN = HIGH →
  lastStableState (run b es) !!! i = LOW →
  lastStableState (loop e (run b es)) !!! i = HIGH →
  let m := ProgramChange (programNumbers !!! i) MIDI_CHANNEL in
  poll_events e (run b es) i = [UsbSend m; SerialSend m; Println (sendLine m)] ∧
  List.filter (about i) (emitted (run b es) (loop e (run b es))) =
    [UsbSend m; SerialSend m] ∧
  m = ProgramChange (Z.of_nat i) 1.
Proof.
  intros Hi Hmode Hlow Hhigh m. pose proof (run_arrays_ok b es) as Hok.
  destruct (commit_is_edge e (run b es) i Hok Hi) as [Hed _];
    [by rewrite Hlow, Hhigh|].
  rewrite Hhigh in Hed.
  assert (programMode_of e = true) as Hpm.
  { unfold programMode_of. by rewrite Hmode. }
  assert (poll_events e (run b es) i = transmitted m) as Hpoll.
  { by rewrite poll_events_edge, Hed, Hpm. }
  split_and!.
  - done.
  - by rewrite about_pass, Hpoll.
  - unfold m. destruct i as [|[|[|[|?]]]]; try lia; reflexivity.
Qed.

Lemma activated_edge_in_program_mode_sends_program_change_witness :
  let w := run boot_all_low [pass_at 0 (λ q, bool_decide (q = 5 ∨ q = 12))] in
  let e := pass_at 10 (λ q, bool_decide (q = 5 ∨ q = 12)) in
  let m := ProgramChange (programNumbers !!! 3%nat) MIDI_CHANNEL in
  poll_events e w 3 = [UsbSend m; SerialSend m; Println (sendLine m)] ∧
  List.filter (about 3) (emitted w (loop e w)) = [UsbSend m; SerialSend m] ∧
  m = ProgramChange (Z.of_nat 3) 1.
Proof.
  apply (activated_edge_in_program_mode_sends_program_change boot_all_low
           [pass_at 0 (λ q, bool_decide (q = 5 ∨ q = 12))]
           (pass_at 10 (λ q, bool_decide (q = 5 ∨ q = 12))) 3).
  - lia.
  - reflexivity.
  - reflexivity.
  - reflexivity.
Defined.

(** X4. In a pass whose mode pin reads LOW, a channel whose stable level
    the pass takes from HIGH to LOW has its poll append exactly: Note Off
    with the note of the channel (60 + i), velocity 0 and MIDI channel 1 on
    USB, the same on serial MIDI, and the diagnostic line. No other MIDI
    send of the pass names the channel. *)
Theorem deactivated_edge_in_note_mode_sends_one_noteOff
    (b : BootEnv) (es : list LoopEnv) (e : LoopEnv) (i : nat) :
  (i < 4)%nat →
  digitalRead e MODE_PIN = LOW →
  lastStableState (run b es) !!! i = HIGH →
  lastStableState (loop e (run b es)) !!! i = LOW →
  let m := NoteOff (noteNumbers !!! i) 0 MIDI_CHANNEL in
  poll_events e (run b es) i = [UsbSend m; SerialSend m; Println (sendLine m)] ∧
  List.filter (about i) (emitted (run b es) (loop e (run b es))) =
    [UsbSend m; SerialSend m] ∧
  m = NoteOff (60 + Z.of_nat i) 0 1.
Proof.
  intros Hi Hmode Hhigh Hlow m. pose proof (run_arrays_ok b es) as Hok.
  destruct (commit_is_edge e (run b es) i Hok Hi) as [Hed _];
    [by rewrite Hlow, Hhigh|].
  rewrite Hlow in Hed.
  assert (programMode_of e = false) as Hpm.
  { unfold programMode_of. by rewrite Hmode. }
  assert (poll_events e (run b es) i = transmitted m) as Hpoll.
  { by rewrite poll_events_edge, Hed, Hpm. }
  split_and!.
  - done.
  - by rewrite about_pass, Hpoll.
  - unfold m. destruct i as [|[|[|[|?]]]]; try lia; reflexivity.
Qed.

Lemma deactivated_edge_in_note_mode_sends_one_noteOff_witness :
  let w := run (mkBootEnv (only_pin 2) (λ _, 0)) [pass_at 0 (λ _, LOW)] in
  let e := pass_at 10 (λ _, LOW) in
  let m := NoteOff (noteNumbers !!! 0%nat) 0 MIDI_CHANNEL in
  poll_events e w 0 = [UsbSend m; SerialSend m; Println (sendLine m)] ∧
  List.filter (about 0) (emitted w (loop e w)) = [UsbSend m; SerialSend m] ∧
  m = NoteOff (60 + Z.of_nat 0) 0 1.
Proof.
  apply (deactivated_edge_in_note_mode_sends_one_noteOff
           (mkBootEnv (only_pin 2) (λ _, 0))
           [pass_at 0 (λ _, LOW)] (pass_at 10 (λ _, LOW)) 0).
  - lia.
  - reflexivity.
  - reflexivity.
  - reflexivity.
Defined.

(** ** Every message the sketch sends *)

Lemma no_sends_fits_mode (pm : bool) (l : list event) :
  sends l = [] → forallb (fits_mode pm) l = true.
Proof.
  unfold sends. induction l as [|ev l IH]; [done|]. simpl.
  destruct ev; simpl; try done; apply IH.
Qed.

Lemma edge_events_fits_mode (pm : bool) (i : nat) (ed : option Spec.edge) :
  forallb (fits_mode pm) (edge_events pm i ed) = true.
Proof. by destruct ed as [[|]|], pm. Qed.

(** X5. The mode read at the start of a pass decides the kind of every
    message of the pass: with the mode pin HIGH the pass sends Program
    Changes only, with the mode pin LOW Note Ons and Note Offs only. *)
Theorem pass_sends_fit_mode (b : BootEnv) (es : list LoopEnv) (e : LoopEnv) :
  forallb (fits_mode (Bool.eqb (digitalRead e MODE_PIN) HIGH))
          (emitted (run b es) (loop e (run b es))) = true.
Proof.
  pose proof (run_arrays_ok b es) as Hok.
  rewrite pass_trace by done.
  destruct (polled_0_inbound_only e (run b es)) as (_ & _ & _ & l & Hl & Hq).
  unfold inbound_events. rewrite (emitted_app _ _ _ Hl).
  rewrite !poll_events_edge by (done || lia).
  rewrite !forallb_app, (no_sends_fits_mode _ l Hq).
  fold (programMode_of e). by rewrite !edge_events_fits_mode.
Qed.

Lemma no_sends_no_msgs (l : list event) :
  sends l = [] → usb_msgs l = [] ∧ serial_msgs l = [].
Proof.
  unfold sends, usb_msgs, serial_msgs.
  induction l as [|ev l IH]; [done|]. simpl.
  destruct ev; simpl; try done; apply IH.
Qed.

Lemma edge_events_msgs (pm : bool) (i : nat) (ed : option Spec.edge) :
  (i < 4)%nat →
  usb_msgs (edge_events pm i ed) = serial_msgs (edge_events pm i ed) ∧
  Forall configured_msg (usb_msgs (edge_events pm i ed)).
Proof.
  intros Hi. destruct ed as [[|]|], pm; simpl; split; try done;
    apply Forall_singleton; exists i; (split; [done|]); tauto.
Qed.

Lemma pass_msgs (e : LoopEnv) (w : World) :
  arrays_ok w →
  usb_msgs (emitted w (loop e w)) = serial_msgs (emitted w (loop e w)) ∧
  Forall configured_msg (usb_msgs (emitted w (loop e w))).
Proof.
  intros Hok. rewrite pass_trace by done.
  destruct (polled_0_inbound_only e w) as (_ & _ & _ & l & Hl & Hq).
  unfold inbound_events. rewrite (emitted_app _ _ _ Hl).
  rewrite !poll_events_edge by (done || lia).
  destruct (no_sends_no_msgs l Hq) as [Hu Hs].
  destruct (edge_events_msgs (programMode_of e) 0
              (edge_in_pass e w 0)) as [H0 F0]; [lia|].
  destruct (edge_events_msgs (programMode_of e) 1
              (edge_in_pass e w 1)) as [H1 F1]; [lia|].
  destruct (edge_events_msgs (programMode_of e) 2
              (edge_in_pass e w 2)) as [H2 F2]; [lia|].
  destruct (edge_events_msgs (programMode_of e) 3
              (edge_in_pass e w 3)) as [H3 F3]; [lia|].
  unfold usb_msgs, serial_msgs in *. rewrite !omap_app.
  rewrite Hu, Hs, H0, H1, H2, H3. split; [done|].
  rewrite <- H0, <- H1, <- H2, <- H3. simpl.
  by repeat (apply Forall_app; split).
Qed.

(** X6. Over a whole run, [setup] included, the serial transport is sent
    exactly the messages the USB transport is sent, in the same order, and
    each of them is a Note On (velocity 110), a Note Off (velocity 0) or a
    Program Change of one of the four channels, on MIDI channel 1. *)
Theorem transports_carry_the_same_configured_messages
    (b : BootEnv) (es : list LoopEnv) :
  usb_msgs (out (run b es)) = serial_msgs (out (run b es)) ∧
  Forall configured_msg (usb_msgs (out (run b es))).
Proof.
  induction es as [|e es [IHeq IHok]] using rev_ind.
  - split; [done|]. apply Forall_nil_2.
  - rewrite run_snoc, loop_out by apply run_arrays_ok.
    destruct (pass_msgs e (run b es) (run_arrays_ok b es)) as [Heq Hconf].
    unfold usb_msgs, serial_msgs in *. rewrite !omap_app. split.
    + by rewrite IHeq, Heq.
    + by apply Forall_app.
Qed.

(** ** A settled level is committed; a held level is not sent again *)

Lemma run_after_change
    (b : BootEnv) (es1 es2 : list LoopEnv) (c : LoopEnv) (i : nat) :
  (i < 4)%nat →
  raw c i ≠ last_raw b es1 i →
  Forall (λ x, raw x i = raw c i) es2 →
  Spec.rawLastRead (channel i (run b (es1 ++ c :: es2))) = raw c i ∧
  Spec.lastChangeTimestamp (channel i (run b (es1 ++ c :: es2))) = millis c.
Proof.
  intros Hi Hc. induction es2 as [|x es2 IH] using rev_ind; intros Hall.
  - rewrite run_snoc, loop_channel by (apply run_arrays_ok || done).
    rewrite debounce_change; [done|]. by rewrite run_raw.
  - apply Forall_app in Hall as [Hall Hx]. inversion Hx as [|? ? Hxc _]; subst.
    destruct (IH Hall) as [Hraw Hts].
    rewrite app_comm_cons, app_assoc, run_snoc.
    rewrite loop_channel by (apply run_arrays_ok || done).
    rewrite Hxc, <- Hraw, debounce_steady.
    by case_bool_decide.
Qed.

(** X7. When a pass [c] saw the raw level of a channel change, every later
    pass up to [e] read the level [c] read, and [e] comes at least
    [DEBOUNCE_MS] and less than 2^32 ms after [c], then after pass [e] the
    stable level of the channel is that level; and if it was not before,
    pass [e] is the one that emits the edge. The [millis()] counter may wrap
    between [c] and [e]. *)
Theorem settled_level_is_committed
    (b : BootEnv) (es1 es2 : list LoopEnv) (c e : LoopEnv) (i : nat) :
  (i < 4)%nat →
  raw c i ≠ last_raw b es1 i →
  Forall (λ x, raw x i = raw c i) (es2 ++ [e]) →
  DEBOUNCE_MS ≤ clock e - clock c < ULONG_MAX1 →
  lastStableState (loop e (run b (es1 ++ c :: es2))) !!! i = raw c i ∧
  (lastStableState (run b (es1 ++ c :: es2)) !!! i ≠ raw c i →
   edge_in_pass e (run b (es1 ++ c :: es2)) i =
     Some (Spec.direction (raw c i))).
Proof.
  intros Hi Hc Hall Hclock.
  apply Forall_app in Hall as [Hall He]. inversion He as [|? ? Hec _]; subst.
  destruct (run_after_change b es1 es2 c i Hi Hc Hall) as [Hraw Hts].
  pose proof (run_arrays_ok b (es1 ++ c :: es2)) as Hok.
  rewrite !stable_is_channel, loop_channel by done.
  unfold edge_in_pass. rewrite Hec, <- Hraw, debounce_steady, Hts.
  unfold millis. rewrite elapsed_offset by (unfold DEBOUNCE_MS in *; lia).
  case_bool_decide as Hcommit; simpl.
  - split; [done|]. done.
  - split; [|intros Hne; exfalso; apply Hcommit; split;
               [unfold DEBOUNCE_MS in *; lia | intros Heq; by apply Hne]].
    destruct (decide (Spec.rawLastRead (channel i (run b (es1 ++ c :: es2)))
                      = Spec.stableLevel (channel i (run b (es1 ++ c :: es2)))))
      as [Heq|Hne]; [done|].
    exfalso. apply Hcommit. split; [unfold DEBOUNCE_MS in *; lia | done].
Qed.

Lemma settled_level_is_committed_witness :
  lastStableState
    (loop (pass_at (2 ^ 32 + 7) (only_pin 4))
          (run boot_all_low ([] ++ pass_at (2 ^ 32 - 3) (only_pin 4) :: [])))
    !!! 2%nat = raw (pass_at (2 ^ 32 - 3) (only_pin 4)) 2 ∧
  edge_in_pass (pass_at (2 ^ 32 + 7) (only_pin 4))
    (run boot_all_low ([] ++ pass_at (2 ^ 32 - 3) (only_pin 4) :: [])) 2 =
    Some (Spec.direction (raw (pass_at (2 ^ 32 - 3) (only_pin 4)) 2)).
Proof.
  destruct (settled_level_is_committed boot_all_low [] []
              (pass_at (2 ^ 32 - 3) (only_pin 4))
              (pass_at (2 ^ 32 + 7) (only_pin 4)) 2) as [Hst Hed].
  - lia.
  - vm_compute. discriminate.
  - apply Forall_singleton. reflexivity.
  - simpl. unfold DEBOUNCE_MS. rewrite ULONG_MAX1_eq. lia.
  - split; [exact Hst|]. apply Hed. vm_compute. discriminate.
Defined.

Lemma held_from (w : World) (es : list LoopEnv) (i : nat) :
  arrays_ok w → (i < 4)%nat →
  Spec.stableLevel (channel i w) = Spec.rawLastRead (channel i w) →
  Forall (λ x, raw x i = Spec.rawLastRead (channel i w)) es →
  channel i (run_from w es) = channel i w ∧
  edges_from w es i = [] ∧
  List.filter (about i) (emitted w (run_from w es)) = [].
Proof.
  intros Hok Hi. revert w Hok.
  induction es as [|e es IH]; intros w Hok Hst Hall.
  - simpl. by rewrite emitted_refl.
  - apply Forall_cons in Hall as [He Hall].
    assert (Spec.debounce (millis e) (raw e i) (channel i w) = (channel i w, None))
      as Hstep.
    { rewrite He, debounce_steady.
      rewrite bool_decide_eq_false_2; [done|]. intros [_ Hne]. congruence. }
    assert (channel i (loop e w) = channel i w) as Hch.
    { by rewrite loop_channel, Hstep. }
    assert (edge_in_pass e w i = None) as Hnone.
    { unfold edge_in_pass. by rewrite Hstep. }
    destruct (pass_edge_or_nothing e w i Hok Hi Hnone) as (_ & _ & Hab).
    destruct (IH (loop e w)) as (Hch' & Hed' & Hab').
    { by apply loop_arrays_ok. }
    { by rewrite Hch. }
    { by rewrite Hch. }
    rewrite emitted_run_from_cons, List.filter_app by done.
    simpl. rewrite Hnone, Hab, Hab'. simpl. split_and!; try done.
    by rewrite Hch', Hch.
Qed.

(** X8. While a channel keeps reading the level that is already its stable
    level, nothing happens on it: over any number of further passes its
    state in the arrays stays as it is, the debounce engine emits no edge,
    and no MIDI send names the channel. In particular an input that is held
    active when the board starts, and after an edge an input that is kept
    where it is, cause no message. *)
Theorem held_level_sends_nothing
    (b : BootEnv) (es es' : list LoopEnv) (i : nat) :
  (i < 4)%nat →
  lastStableState (run b es) !!! i = last_raw b es i →
  Forall (λ x, raw x i = last_raw b es i) es' →
  channel i (run b (es ++ es')) = channel i (run b es) ∧
  edges_from (run b es) es' i = [] ∧
  List.filter (about i) (emitted (run b es) (run b (es ++ es'))) = [].
Proof.
  intros Hi Hst Hall. rewrite <- run_raw in Hst, Hall by done.
  assert (run b (es ++ es') = run_from (run b es) es') as ->.
  { by rewrite !run_run_from, run_from_app. }
  apply held_from; try done. apply run_arrays_ok.
Qed.

Lemma held_level_sends_nothing_witness :
  edges_from (run (mkBootEnv (only_pin 3) (λ _, 0)) [])
    [pass_at 5 (only_pin 3); pass_at 50 (only_pin 3)] 1 = [] ∧
  List.filter (about 1)
    (emitted (run (mkBootEnv (only_pin 3) (λ _, 0)) [])
       (run (mkBootEnv (only_pin 3) (λ _, 0))
          ([] ++ [pass_at 5 (only_pin 3); pass_at 50 (only_pin 3)]))) = [].
Proof.
  destruct (held_level_sends_nothing (mkBootEnv (only_pin 3) (λ _, 0)) []
              [pass_at 5 (only_pin 3); pass_at 50 (only_pin 3)] 1)
    as (_ & Hed & Hab).
  - lia.
  - reflexivity.
  - repeat constructor.
  - by split.
Defined.

(** ** Inbound queues and the output pins *)

Lemma drain_app (q1 q2 : list inbound) (w : World) :
  drain (q1 ++ q2) w = drain q2 (drain q1 w).
Proof. unfold drain. by rewrite foldl_app. Qed.

Lemma pinLevel_println (s : string) (w : World) :
  pinLevel (println s w) = pinLevel w.
Proof. reflexivity. Qed.

(** One delivered message sets the output of channel [i] to the level it
    asks for, if it is a note message for the note of the channel, and
    leaves that output alone otherwise. *)
Lemma deliver_pin (w : World) (m : inbound) (i : nat) :
  (i < 4)%nat →
  pinLevel (deliver w m) !! (outputPins !!! i) =
  match asked_level (noteNumbers !!! i) m with
  | Some level => Some level
  | None => pinLevel w !! (outputPins !!! i)
  end.
Proof.
  intros Hi.
  assert (∀ level n,
    pinLevel (noteScan noteNumbers outputPins level n 0 4 w)
      !! (outputPins !!! i) =
    if n =? noteNumbers !!! i then Some level
    else pinLevel w !! (outputPins !!! i)) as Hscan.
  { intros level n.
    destruct (noteScan_configured level n w) as [[Hn ->]|(j & Hj & ->)].
    - destruct (Z.eqb_spec n (noteNumbers !!! i)) as [->|_]; [|done].
      exfalso. by apply (unconfigured_note _ i Hn Hi).
    - apply lookup_lt_Some in Hj as Hlt. simpl in Hlt.
      apply list_lookup_total_correct in Hj as <-. simpl.
      destruct i as [|[|[|[|?]]]], j as [|[|[|[|?]]]]; try lia;
        by simplify_map_eq. }
  destruct m as [c n v|c n v|]; cbn [deliver asked_level]; [| |done].
  - unfold handleNoteOn. rewrite processNoteOn_channel_free.
    rewrite pinLevel_println, Hscan. by destruct (n =? noteNumbers !!! i).
  - unfold handleNoteOff. rewrite processNoteOff_channel_free.
    rewrite pinLevel_println, Hscan. by destruct (n =? noteNumbers !!! i).
Qed.

Lemma drain_pin_untouched (q : list inbound) (w : World) (i : nat) :
  (i < 4)%nat →
  Forall (λ x, asked_level (noteNumbers !!! i) x = None) q →
  pinLevel (drain q w) !! (outputPins !!! i) = pinLevel w !! (outputPins !!! i).
Proof.
  intros Hi. unfold drain. revert w.
  induction q as [|m q IH]; intros w Hall; [done|].
  apply Forall_cons in Hall as [Hm Hall]. simpl.
  rewrite IH by done. by rewrite deliver_pin, Hm.
Qed.

(** X9. The level of an output after a queue of inbound messages was
    handled is the level the last note message for its note asked for (LOW
    for a Note On with a velocity other than 0, HIGH for a Note Off or a Note
    On with velocity 0), whatever came before; messages for other notes and
    messages that are no notes leave the output as it is. *)
Theorem last_note_message_wins
    (q1 q2 : list inbound) (m : inbound) (w : World) (i : nat) (level : bool) :
  (i < 4)%nat →
  asked_level (noteNumbers !!! i) m = Some level →
  Forall (λ x, asked_level (noteNumbers !!! i) x = None) q2 →
  pinLevel (drain (q1 ++ m :: q2) w) !! (outputPins !!! i) = Some level ∧
  pinLevel (drain q2 w) !! (outputPins !!! i) = pinLevel w !! (outputPins !!! i).
Proof.
  intros Hi Hm Hq2. split; [|by apply drain_pin_untouched].
  rewrite drain_app. change (m :: q2) with ([m] ++ q2). rewrite drain_app.
  rewrite drain_pin_untouched by done.
  unfold drain at 1. simpl. by rewrite deliver_pin, Hm.
Qed.

Lemma last_note_message_wins_witness :
  pinLevel (drain ([InNoteOff 1 61 0; InNoteOn 3 61 0]
                   ++ InNoteOn 2 61 90 :: [InOther; InNoteOff 1 60 0])
                  power_on) !! (outputPins !!! 1%nat) = Some LOW ∧
  pinLevel (drain [InOther; InNoteOff 1 60 0] power_on) !! (outputPins !!! 1%nat)
    = pinLevel power_on !! (outputPins !!! 1%nat).
Proof.
  apply (last_note_message_wins [InNoteOff 1 61 0; InNoteOn 3 61 0]
           [InOther; InNoteOff 1 60 0] (InNoteOn 2 61 90) power_on 1 LOW).
  - lia.
  - reflexivity.
  - repeat constructor.
Defined.

(** ** The two directions do not touch each other *)

Lemma inbound_only_usb_serial (e : LoopEnv) (w : World) :
  polled e w 0 = drain (serialQueue e ++ usbQueue e) w.
Proof. by rewrite polled_0, drain_app. Qed.

Lemma no_sends_no_writes_edge_events (pm : bool) (i : nat) (ed : option Spec.edge) :
  writes (edge_events pm i ed) = [].
Proof. by destruct ed as [[|]|], pm. Qed.

Lemma sends_edge_events_pass (e : LoopEnv) (w : World) :
  arrays_ok w →
  sends (emitted w (loop e w)) =
  sends (edge_events (programMode_of e) 0 (edge_in_pass e w 0)) ++
  sends (edge_events (programMode_of e) 1 (edge_in_pass e w 1)) ++
  sends (edge_events (programMode_of e) 2 (edge_in_pass e w 2)) ++
  sends (edge_events (programMode_of e) 3 (edge_in_pass e w 3)).
Proof.
  intros Hok. rewrite pass_trace by done.
  destruct (polled_0_inbound_only e w) as (_ & _ & _ & l & Hl & Hq).
  unfold inbound_events. rewrite (emitted_app _ _ _ Hl).
  rewrite !poll_events_edge by (done || lia).
  unfold sends in *. by rewrite !List.filter_app, Hq.
Qed.

(** X10. Inputs and outputs are separate in every pass. The pin levels after
    a pass are those the inbound messages leave, the serial queue handled
    before the USB queue, whatever the input pins, the mode pin and the clock
    read; no poll of an input writes a pin. And the debounce state and the
    MIDI messages sent are those of the same pass with both queues empty:
    no inbound message reaches the debounce arrays or is sent on. *)
Theorem inbound_and_outbound_are_separate
    (b : BootEnv) (es : list LoopEnv) (e : LoopEnv) :
  pinLevel (loop e (run b es)) =
    pinLevel (drain (serialQueue e ++ usbQueue e) (run b es)) ∧
  (∀ k, (k < 4)%nat → writes (poll_events e (run b es) k) = []) ∧
  (∀ i, (i < 4)%nat →
     channel i (loop e (run b es)) =
     channel i (loop (mkLoopEnv [] [] (digitalRead e) (clock e)) (run b es))) ∧
  sends (emitted (run b es) (loop e (run b es))) =
    sends (emitted (run b es)
             (loop (mkLoopEnv [] [] (digitalRead e) (clock e)) (run b es))).
Proof.
  pose proof (run_arrays_ok b es) as Hok. split_and!.
  - rewrite loop_polled, polled_pinLevel by (done || lia).
    by rewrite inbound_only_usb_serial.
  - intros k Hk. rewrite poll_events_edge by done.
    apply no_sends_no_writes_edge_events.
  - intros i Hi. by rewrite !loop_channel.
  - by rewrite !sends_edge_events_pass.
Qed.

Lemma inbound_and_outbound_are_separate_witness :
  pinLevel (loop (mkLoopEnv [InNoteOn 1 60 100] [InNoteOff 1 60 0]
                            (only_pin 2) 10)
                 (run boot_all_low [pass_at 0 (only_pin 2)])) !! 14 = Some HIGH ∧
  writes (poll_events (mkLoopEnv [InNoteOn 1 60 100] [InNoteOff 1 60 0]
                                 (only_pin 2) 10)
                      (run boot_all_low [pass_at 0 (only_pin 2)]) 0) = [].
Proof.
  destruct (inbound_and_outbound_are_separate boot_all_low
              [pass_at 0 (only_pin 2)]
              (mkLoopEnv [InNoteOn 1 60 100] [InNoteOff 1 60 0] (only_pin 2) 10))
    as (Hpins & Hwr & _ & _).
  split.
  - rewrite Hpins. reflexivity.
  - apply Hwr. lia.
Defined.

(** ** Channels do not influence each other *)

Lemma about_run_from_cons (w : World) (e : LoopEnv) (es : list LoopEnv) (i : nat) :
  arrays_ok w → (i < 4)%nat →
  List.filter (about i) (emitted w (run_from w (e :: es))) =
  sends (edge_events (programMode_of e) i (edge_in_pass e w i)) ++
  List.filter (about i) (emitted (loop e w) (run_from (loop e w) es)).
Proof.
  intros Hok Hi.
  rewrite emitted_run_from_cons, List.filter_app by done.
  by rewrite about_pass, poll_events_edge.
Qed.

Lemma channel_independent_from
    (w w' : World) (es es' : list LoopEnv) (i : nat) :
  arrays_ok w → arrays_ok w' → (i < 4)%nat →
  channel i w = channel i w' →
  Forall2 (λ e e', millis e = millis e' ∧ raw e i = raw e' i ∧
                   programMode_of e = programMode_of e') es es' →
  channel i (run_from w es) = channel i (run_from w' es') ∧
  edges_from w es i = edges_from w' es' i ∧
  List.filter (about i) (emitted w (run_from w es)) =
    List.filter (about i) (emitted w' (run_from w' es')).
Proof.
  intros Hok Hok' Hi Hch Hall. revert w w' Hok Hok' Hch.
  induction Hall as [|e e' es es' (Hm & Hr & Hp) _ IH]; intros w w' Hok Hok' Hch.
  - simpl. by rewrite !emitted_refl.
  - assert (edge_in_pass e w i = edge_in_pass e' w' i) as Hed.
    { unfold edge_in_pass. by rewrite Hm, Hr, Hch. }
    assert (channel i (loop e w) = channel i (loop e' w')) as Hch'.
    { rewrite !loop_channel by done. by rewrite Hm, Hr, Hch. }
    destruct (IH (loop e w) (loop e' w')) as (Hc & He & Ha);
      [by apply loop_arrays_ok | by apply loop_arrays_ok | done |].
    rewrite !about_run_from_cons by done.
    simpl. by rewrite Hed, Hp, He, Ha.
Qed.

(** X11. What happens on a channel depends on its own input only. Two runs
    that agree, pass by pass, on [millis()], on the level read on the pin of
    channel [i] and on the mode, and whose [setup] read the same level on
    that pin at the same [millis()], agree on the state of channel [i], on
    the edges the debounce engine emits for it and on the MIDI sends that
    name it, whatever the other inputs and the inbound queues do. *)
Theorem channel_depends_on_its_own_input_only
    (b b' : BootEnv) (es es' : list LoopEnv) (i : nat) :
  (i < 4)%nat →
  bootRead b (inputPins !!! i) = bootRead b' (inputPins !!! i) →
  bootMillis b i = bootMillis b' i →
  Forall2 (λ e e', millis e = millis e' ∧ raw e i = raw e' i ∧
                   programMode_of e = programMode_of e') es es' →
  channel i (run b es) = channel i (run b' es') ∧
  edges_from (setup b power_on) es i = edges_from (setup b' power_on) es' i ∧
  List.filter (about i) (emitted (setup b power_on) (run b es)) =
    List.filter (about i) (emitted (setup b' power_on) (run b' es')).
Proof.
  intros Hi Hread Hmillis Hall. rewrite !run_run_from.
  apply channel_independent_from; try done; try apply setup_arrays_ok.
  rewrite !setup_channel by done. by rewrite Hread, Hmillis.
Qed.

Lemma channel_depends_on_its_own_input_only_witness :
  channel 0 (run boot_all_low
               [pass_at 0 (only_pin 2); pass_at 12 (only_pin 2)]) =
  channel 0 (run (mkBootEnv (only_pin 5) (λ _, 0))
               [mkLoopEnv [InNoteOn 1 60 9] [] (λ q, bool_decide (q = 2 ∨ q = 3)) 0;
                mkLoopEnv [] [InOther] (λ q, bool_decide (q = 2 ∨ q = 4)) 12]).
Proof.
  apply (channel_depends_on_its_own_input_only boot_all_low
           (mkBootEnv (only_pin 5) (λ _, 0))
           [pass_at 0 (only_pin 2); pass_at 12 (only_pin 2)]
           [mkLoopEnv [InNoteOn 1 60 9] [] (λ q, bool_decide (q = 2 ∨ q = 3)) 0;
            mkLoopEnv [] [InOther] (λ q, bool_decide (q = 2 ∨ q = 4)) 12] 0).
  - lia.
  - reflexivity.
  - reflexivity.
  - repeat constructor.
Defined.

(** ** Note mode: Note On and Note Off alternate *)

Lemma note_alternation_from
    (w : World) (es : list LoopEnv) (i : nat) :
  arrays_ok w → (i < 4)%nat →
  Forall (λ e, digitalRead e MODE_PIN = LOW) es →
  note_alternation (lastStableState w !!! i) (noteNumbers !!! i)
    (usb_msgs (List.filter (about i) (emitted w (run_from w es)))) ∧
  note_alternation (lastStableState w !!! i) (noteNumbers !!! i)
    (serial_msgs (List.filter (about i) (emitted w (run_from w es)))).
Proof.
  intros Hok Hi Hall. revert w Hok.
  induction Hall as [|e es Hmode _ IH]; intros w Hok.
  - simpl. by rewrite emitted_refl.
  - rewrite about_run_from_cons by done.
    assert (programMode_of e = false) as ->.
    { unfold programMode_of. by rewrite Hmode. }
    unfold usb_msgs, serial_msgs. rewrite !omap_app.
    specialize (IH (loop e w) (loop_arrays_ok e w Hok)).
    destruct (edge_in_pass e w i) as [ed|] eqn:Hed.
    + destruct (edge_is_commit e w i ed Hok Hi Hed) as (Hnew & Hold & ->).
      rewrite Hnew in IH. rewrite Hold.
      destruct (raw e i); simpl; by destruct IH.
    + destruct (pass_edge_or_nothing e w i Hok Hi Hed) as (Hsame & _).
      rewrite Hsame in IH. exact IH.
Qed.

(** X12. In a run whose every pass reads the mode pin LOW, the messages
    that name a channel are, on the USB and on the serial transport alike,
    Note On (velocity 110) and Note Off (velocity 0) for the note of the
    channel in strict alternation; the first is a Note On exactly when
    [setup] read the input LOW. So no note is sent on twice without a Note
    Off in between, and none is sent off that was not on. *)
Theorem note_mode_notes_alternate
    (b : BootEnv) (es : list LoopEnv) (i : nat) :
  (i < 4)%nat →
  Forall (λ e, digitalRead e MODE_PIN = LOW) es →
  note_alternation (bootRead b (inputPins !!! i)) (noteNumbers !!! i)
    (usb_msgs (List.filter (about i) (emitted (setup b power_on) (run b es)))) ∧
  note_alternation (bootRead b (inputPins !!! i)) (noteNumbers !!! i)
    (serial_msgs (List.filter (about i) (emitted (setup b power_on) (run b es)))).
Proof.
  intros Hi Hall.
  pose proof (note_alternation_from (setup b power_on) es i
                (setup_arrays_ok b) Hi Hall) as Halt.
  rewrite stable_is_channel, setup_channel in Halt by done. exact Halt.
Qed.

Lemma note_mode_notes_alternate_witness :
  usb_msgs (List.filter (about 2)
    (emitted (setup boot_all_low power_on)
       (run boot_all_low
          [pass_at 0 (only_pin 4); pass_at 10 (only_pin 4);
           pass_at 20 (λ _, LOW); pass_at 30 (λ _, LOW)]))) =
    [NoteOn 62 110 1; NoteOff 62 0 1] ∧
  note_alternation (bootRead boot_all_low (inputPins !!! 2%nat))
    (noteNumbers !!! 2%nat)
    (usb_msgs (List.filter (about 2)
       (emitted (setup boot_all_low power_on)
          (run boot_all_low
             [pass_at 0 (only_pin 4); pass_at 10 (only_pin 4);
              pass_at 20 (λ _, LOW); pass_at 30 (λ _, LOW)])))).
Proof.
  split; [reflexivity|].
  apply (note_mode_notes_alternate boot_all_low
           [pass_at 0 (only_pin 4); pass_at 10 (only_pin 4);
            pass_at 20 (λ _, LOW); pass_at 30 (λ _, LOW)] 2).
  - lia.
  - repeat constructor.
Defined.

(** ** The debounce window is measured on the wrapping counter *)


